(** * NexusAI offline generation store, sync hook and quota facade

    A shallow embedding of
    - [lib/storage/indexdb.ts]   (class [IndexedDBManager]),
    - [hooks/use-indexdb.ts]     ([useIndexDB], [useAutoSync]),
    - [hooks/use-subscription.ts] ([hasFeatureAccess], [hasReachedLimit],
      [getRemainingQuota]),
    followed by the properties proved about them.

    The object store is a finite map from record id to record
    ([keyPath: 'id']); asynchronous methods become computations in a
    state-and-exception monad over the browser-side world; the clock,
    the random source, the file reader and the remote endpoint are an
    explicit environment. *)

From Stdlib Require Import ZArith Lia.
From stdpp Require Import gmap strings list fin_maps pretty sorting.

Local Open Scope string_scope.
Local Open Scope list_scope.
Local Open Scope Z_scope.

(* ===================================================================== *)
(** ** JavaScript values and array primitives used by the sources        *)
(* ===================================================================== *)

Module JS.

(** The values a property read can produce in the modelled code.
    [Function] and [Object] only arise from the properties that every
    object inherits from [Object.prototype]. *)
Inductive value :=
| Undefined
| Bool (b : bool)
| Number (n : Z)
| Function (name : string)
| Object (name : string).

(** [ToBoolean]. *)
Definition truthy (v : value) : bool :=
  match v with
  | Undefined => false
  | Bool b => b
  | Number n => negb (n =? 0)
  | Function _ => true
  | Object _ => true
  end.

(** [a || b]. *)
Definition or (a b : value) : value := if truthy a then a else b.

(** The properties an object literal, or an object parsed from JSON,
    inherits from [Object.prototype]. *)
Definition Object_prototype : list (string * value) :=
  [ ("constructor", Function "Object");
    ("__defineGetter__", Function "__defineGetter__");
    ("__defineSetter__", Function "__defineSetter__");
    ("hasOwnProperty", Function "hasOwnProperty");
    ("__lookupGetter__", Function "__lookupGetter__");
    ("__lookupSetter__", Function "__lookupSetter__");
    ("isPrototypeOf", Function "isPrototypeOf");
    ("propertyIsEnumerable", Function "propertyIsEnumerable");
    ("toString", Function "toString");
    ("valueOf", Function "valueOf");
    ("__proto__", Object "Object.prototype");
    ("toLocaleString", Function "toLocaleString") ].

Fixpoint assoc (l : list (string * value)) (k : string) : option value :=
  match l with
  | [] => None
  | (k', v) :: l' => if String.eqb k' k then Some v else assoc l' k
  end.

Definition inherited (k : string) : option value := assoc Object_prototype k.

(** The outcome of [obj[k]] on an ordinary object whose own properties
    are the finite map [own]. *)
Inductive property (V : Type) :=
| Own (v : V)
| Inherited (v : value)
| Missing.
Arguments Own {V} v.
Arguments Inherited {V} v.
Arguments Missing {V}.

Definition get {V} (own : gmap string V) (k : string) : property V :=
  match own !! k with
  | Some v => Own v
  | None =>
      match inherited k with
      | Some v => Inherited v
      | None => Missing
      end
  end.

(** The value read, given how own properties are represented. *)
Definition read {V} (inj : V → value) (p : property V) : value :=
  match p with
  | Own v => inj v
  | Inherited v => v
  | Missing => Undefined
  end.

(** [ToNumber]; [None] is [NaN].  The inherited functions and
    [Object.prototype] itself convert to a non-numeric string first. *)
Definition to_number (v : value) : option Z :=
  match v with
  | Undefined => None
  | Bool b => Some (if b then 1 else 0)
  | Number n => Some n
  | Function _ => None
  | Object _ => None
  end.

(** [a >= b] against a number [b]; false when [a] converts to [NaN]. *)
Definition ge (a : value) (b : Z) : bool :=
  match to_number a with
  | Some x => b <=? x
  | None => false
  end.

(** [Array.prototype.slice(start, end)] on integer arguments: negative
    indices count from the end, everything is clamped to the array. *)
Definition rel_index (len i : Z) : Z :=
  if i <? 0 then Z.max (len + i) 0 else Z.min i len.

Definition slice {A} (l : list A) (start stop : Z) : list A :=
  let len := Z.of_nat (length l) in
  let k := rel_index len start in
  let final := rel_index len stop in
  take (Z.to_nat (final - k)) (drop (Z.to_nat k) l).

(** [Array.prototype.sort(cmp)].  [cmp a b] is the number the comparator
    returns, [None] for [NaN].

    When [cmp] is a consistent comparison function for the elements,
    the result is fixed by the language: ascending, [cmp a b] negative
    putting [a] first, elements that compare equal in the order they had
    (the sort is stable).  That list is [stable_sort]. *)
Definition before {A} (cmp : A → A → option Z) (a b : A) : bool :=
  match cmp a b with
  | Some v => v <? 0
  | None => false
  end.

Fixpoint insert {A} (cmp : A → A → option Z) (x : A) (l : list A) : list A :=
  match l with
  | [] => [x]
  | y :: l' => if before cmp y x then y :: insert cmp x l' else x :: y :: l'
  end.

Definition stable_sort {A} (cmp : A → A → option Z) (l : list A) : list A :=
  foldr (insert cmp) [] l.

(** "Consistent comparison function for a set of values", as the
    language defines it: on the elements of [l] the comparator never
    returns [NaN], every element equals itself, equality is symmetric,
    and equality, less-than and greater-than are transitive. *)
Definition consistent {A} (cmp : A → A → option Z) (l : list A) : bool :=
  forallb (λ a,
    forallb (λ b,
      forallb (λ c,
        match cmp a a, cmp a b, cmp b a, cmp b c, cmp a c with
        | Some aa, Some ab, Some ba, Some bc, Some ac =>
            (aa =? 0)
            && implb (ab =? 0) (ba =? 0)
            && implb ((ab =? 0) && (bc =? 0)) (ac =? 0)
            && implb ((ab <? 0) && (bc <? 0)) (ac <? 0)
            && implb ((0 <? ab) && (0 <? bc)) (0 <? ac)
        | _, _, _, _, _ => false
        end) l) l) l.

(** The elements of [l] in the order of the ranks given to their
    positions (a position without a rank has rank 0, equal ranks keep
    their order): any rearrangement of [l] is of this form. *)
Definition arrange {A} (ranks : list nat) (l : list A) : list A :=
  (stable_sort (λ a b : nat * A, Some (Z.of_nat a.1 - Z.of_nat b.1))
     (imap (λ i x, (default 0%nat (ranks !! i), x)) l)).*2.

(** When [cmp] is not consistent on the elements, the language leaves
    the order to the implementation: [unspecified cmp l] stands for what
    the engine at hand does in that case, as the ranks by which it
    rearranges [l]. *)
Definition sort {A} (unspecified : (A → A → option Z) → list A → list nat)
    (cmp : A → A → option Z) (l : list A) : list A :=
  if consistent cmp l then stable_sort cmp l
  else arrange (unspecified cmp l) l.

(** [n + 1] on a number that holds an integer: [n] is a double.  Up to
    2^53 in size the sum is exact.  Beyond, the doubles are the even
    integers (up to 2^54), so [n + 1] lies half-way between [n] and
    [n + 2] and goes to the one with the even significand; from 2^54 on
    the doubles are at least 4 apart and the sum rounds back to [n]. *)
Definition add1 (n : Z) : Z :=
  if (- 2 ^ 53 <=? n) && (n <? 2 ^ 53) then n + 1
  else if Z.abs n <=? 2 ^ 54 then (if Z.even (n / 2) then n else n + 2)
  else n.

(** [[...new Set(l)]]: duplicates dropped, first occurrences kept in
    order. *)
Definition dedupe (l : list string) : list string :=
  reverse (remove_dups (reverse l)).

(** A boolean field that may be [undefined], as a value. *)
Definition boolean (b : option bool) : value :=
  match b with
  | Some b => Bool b
  | None => Undefined
  end.

End JS.

(* ===================================================================== *)
(** ** lib/storage/indexdb.ts                                            *)
(* ===================================================================== *)

Module IndexedDB.

(** *** Records *)

Inductive generation_type := image | video | audio | code | conversation.

Global Instance generation_type_eq_dec : EqDecision generation_type.
Proof. solve_decision. Defined.

Definition Blob := list Byte.byte.

(** [result: string | Blob].  [EmptyObject] is what a blob becomes once
    it has been through [JSON.stringify] and [JSON.parse]. *)
Inductive result_data :=
| Text (s : string)
| BlobData (b : Blob)
| EmptyObject.

(** A field declared [Date] holds a [Date] object, or, in a record that
    came back from JSON, the ISO-8601 string of the same instant (given
    in milliseconds since the epoch). *)
Inductive date :=
| DateObj (ms : Z)
| IsoString (ms : Z).

Definition instant (d : date) : Z :=
  match d with DateObj ms | IsoString ms => ms end.

(** [any], as far as it can be kept in the store: the values the
    structured clone of [put] accepts, as finite trees.  A number holds
    an integer; [MetaNaN] stands for the numbers JSON has no text for
    ([NaN], the infinities); [MetaIsoString ms] is the string
    [toISOString] gives for the instant [ms]. *)
#[local] Unset Elimination Schemes.
Inductive meta_value :=
| MetaString (s : string)
| MetaIsoString (ms : Z)
| MetaNumber (n : Z)
| MetaNaN
| MetaBool (b : bool)
| MetaNull
| MetaUndefined
| MetaDate (ms : Z)
| MetaBigInt (n : Z)
| MetaBlob (b : Blob)
| MetaArray (items : list meta_value)
| MetaObject (entries : list (string * meta_value)).
#[local] Set Elimination Schemes.

(** [metadata?: Record<string, any>]: the entries of the object. *)
Definition Metadata := list (string * meta_value).

(** [interface IndexedDBGeneration], as records are found in the store.
    [synced] is declared [boolean]; a stored record can be without it
    ([None]): [updateGeneration] stores the spread of whatever fields it
    is given, [{ synced: undefined }] included. *)
Record IndexedDBGeneration := {
  id : string;
  userId : string;
  type : generation_type;
  prompt : string;
  result : result_data;
  model : option string;
  metadata : option Metadata;
  createdAt : date;
  updatedAt : option date;
  synced : option bool;
  syncAttempts : option Z;
  lastSyncAttempt : option date;
  tags : option (list string);
  favorite : option bool;
}.

(** [Partial<IndexedDBGeneration>]: [None] is a key that is not there.
    A key can be present with the value [undefined], hence the nested
    option: for the optional fields, and for [id] and [synced], which the
    spread of [updateGeneration] then overwrites with [undefined].  The
    fields [userId], [type], [prompt], [result] and [createdAt], when
    present, hold a value of their type. *)
Record Partial := {
  p_id : option (option string);
  p_userId : option string;
  p_type : option generation_type;
  p_prompt : option string;
  p_result : option result_data;
  p_model : option (option string);
  p_metadata : option (option Metadata);
  p_createdAt : option date;
  p_updatedAt : option (option date);
  p_synced : option (option bool);
  p_syncAttempts : option (option Z);
  p_lastSyncAttempt : option (option date);
  p_tags : option (option (list string));
  p_favorite : option (option bool);
}.

(** [{}] *)
Definition no_updates : Partial :=
  {| p_id := None; p_userId := None; p_type := None; p_prompt := None;
     p_result := None; p_model := None; p_metadata := None;
     p_createdAt := None; p_updatedAt := None; p_synced := None;
     p_syncAttempts := None; p_lastSyncAttempt := None; p_tags := None;
     p_favorite := None |}.

(** The object literals passed to [updateGeneration] by the methods of
    the manager. *)
(** [{ synced: true, lastSyncAttempt: now }] *)
Definition synced_fields (now : date) : Partial :=
  {| p_id := None; p_userId := None; p_type := None; p_prompt := None;
     p_result := None; p_model := None; p_metadata := None;
     p_createdAt := None; p_updatedAt := None;
     p_synced := Some (Some true);
     p_syncAttempts := None;
     p_lastSyncAttempt := Some (Some now);
     p_tags := None; p_favorite := None |}.

(** [{ syncAttempts: n, lastSyncAttempt: now }] *)
Definition failed_fields (n : Z) (now : date) : Partial :=
  {| p_id := None; p_userId := None; p_type := None; p_prompt := None;
     p_result := None; p_model := None; p_metadata := None;
     p_createdAt := None; p_updatedAt := None;
     p_synced := None;
     p_syncAttempts := Some (Some n);
     p_lastSyncAttempt := Some (Some now);
     p_tags := None; p_favorite := None |}.

(** [{ favorite: b }] *)
Definition favorite_fields (b : bool) : Partial :=
  {| p_id := None; p_userId := None; p_type := None; p_prompt := None;
     p_result := None; p_model := None; p_metadata := None;
     p_createdAt := None; p_updatedAt := None; p_synced := None;
     p_syncAttempts := None; p_lastSyncAttempt := None; p_tags := None;
     p_favorite := Some (Some b) |}.

(** [{ tags: ts }] *)
Definition tags_fields (ts : list string) : Partial :=
  {| p_id := None; p_userId := None; p_type := None; p_prompt := None;
     p_result := None; p_model := None; p_metadata := None;
     p_createdAt := None; p_updatedAt := None; p_synced := None;
     p_syncAttempts := None; p_lastSyncAttempt := None;
     p_tags := Some (Some ts); p_favorite := None |}.

(** [Omit<IndexedDBGeneration, 'id' | 'createdAt' | 'synced'>] *)
Record NewGeneration := {
  n_userId : string;
  n_type : generation_type;
  n_prompt : string;
  n_result : result_data;
  n_model : option string;
  n_metadata : option Metadata;
  n_updatedAt : option date;
  n_syncAttempts : option Z;
  n_lastSyncAttempt : option date;
  n_tags : option (list string);
  n_favorite : option bool;
}.

(** [{ ...existing, ...updates, updatedAt: now }], for [updates] that
    do not hold [id: undefined]. *)
Definition spread (existing : IndexedDBGeneration) (updates : Partial)
    (now : date) : IndexedDBGeneration :=
  {| id := default (id existing) (mjoin (p_id updates));
     userId := default (userId existing) (p_userId updates);
     type := default (type existing) (p_type updates);
     prompt := default (prompt existing) (p_prompt updates);
     result := default (result existing) (p_result updates);
     model := default (model existing) (p_model updates);
     metadata := default (metadata existing) (p_metadata updates);
     createdAt := default (createdAt existing) (p_createdAt updates);
     updatedAt := Some now;
     synced := default (synced existing) (p_synced updates);
     syncAttempts := default (syncAttempts existing) (p_syncAttempts updates);
     lastSyncAttempt :=
       default (lastSyncAttempt existing) (p_lastSyncAttempt updates);
     tags := default (tags existing) (p_tags updates);
     favorite := default (favorite existing) (p_favorite updates) |}.

(** *** The browser-side world and the monad of asynchronous methods *)

(** What the code reads from outside: [Date.now()] and [new Date()]
    (the time at the n-th reading of the environment), the random suffix
    [Math.random().toString(36).substr(2, 9)], [FileReader.readAsDataURL]
    (which can fail) and the answer of [POST /api/database/sync] given
    the requests made so far ([true] for a 2xx answer within the
    timeout). *)
Record Env := {
  clock : nat → Z;
  random : nat → string;
  readAsDataURL : Blob → option string;
  post : list IndexedDBGeneration → IndexedDBGeneration → bool;
}.

(** The world also holds what the browser at hand does where the
    standards leave room or engines differ: whether a query that is not
    a valid key is refused ([strict_keys], what the IndexedDB standard
    asks for) or answered with no record, and how [Array.prototype.sort]
    rearranges a list under a comparator that is not consistent. *)
Record World := {
  store : gmap string IndexedDBGeneration;  (* object store 'generations' *)
  db : bool;                                (* [this.db] is set *)
  engine : bool;                            (* [openDB] would succeed *)
  ticks : nat;                              (* readings of the environment *)
  posted : list IndexedDBGeneration;        (* requests sent, oldest first *)
  strict_keys : bool;                       (* an invalid key is a DataError *)
  unspecified_order :
    (IndexedDBGeneration → IndexedDBGeneration → option Z) →
    list IndexedDBGeneration → list nat;
}.

Definition set_store (s : gmap string IndexedDBGeneration) (w : World) : World :=
  {| store := s; db := db w; engine := engine w; ticks := ticks w;
     posted := posted w; strict_keys := strict_keys w;
     unspecified_order := unspecified_order w |}.
Definition set_db (b : bool) (w : World) : World :=
  {| store := store w; db := b; engine := engine w; ticks := ticks w;
     posted := posted w; strict_keys := strict_keys w;
     unspecified_order := unspecified_order w |}.
Definition tick (w : World) : World :=
  {| store := store w; db := db w; engine := engine w; ticks := S (ticks w);
     posted := posted w; strict_keys := strict_keys w;
     unspecified_order := unspecified_order w |}.
Definition add_posted (g : IndexedDBGeneration) (w : World) : World :=
  {| store := store w; db := db w; engine := engine w; ticks := ticks w;
     posted := posted w ++ [g]; strict_keys := strict_keys w;
     unspecified_order := unspecified_order w |}.

Inductive error :=
| InitializationFailed          (* 'IndexedDB initialization failed: ...' *)
| NotInitialized                (* 'Database not initialized' *)
| NotFound (i : string)         (* 'Generation with ID ... not found' *)
| SaveFailed (cause : error)    (* 'Failed to save generation: ...' *)
| NotAuthenticated              (* 'User not authenticated' *)
| BlobConversionFailed          (* 'Failed to convert blob to base64' *)
| RequestFailed                 (* axios rejects: network, status, timeout *)
| GenerationNotFound            (* 'Generation not found' *)
| InvalidKey                    (* DataError: the parameter is not a valid key *)
| NotSerializable.              (* TypeError: a BigInt cannot be serialised *)

Inductive outcome (A : Type) :=
| Ok (a : A)
| Throw (e : error).
Arguments Ok {A} a.
Arguments Throw {A} e.

(** An awaited call: it returns or throws, and leaves a world behind in
    both cases. *)
Definition M (A : Type) : Type := World → outcome A * World.

Definition ret {A} (a : A) : M A := λ w, (Ok a, w).
Definition throw {A} (e : error) : M A := λ w, (Throw e, w).
Definition bind {A B} (c : M A) (k : A → M B) : M B :=
  λ w, match c w with
       | (Ok a, w') => k a w'
       | (Throw e, w') => (Throw e, w')
       end.
(** [try { c } catch (error) { h error }] *)
Definition try_catch {A} (c : M A) (h : error → M A) : M A :=
  λ w, match c w with
       | (Ok a, w') => (Ok a, w')
       | (Throw e, w') => h e w'
       end.

Global Instance M_ret : MRet M := @ret.
Global Instance M_bind : MBind M := λ A B k c, bind c k.

(** *** The object store and its indexes *)

(** Records come out of the store and of its indexes in ascending order
    of the primary key. *)
Fixpoint insert_by_key (kv : string * IndexedDBGeneration)
    (l : list (string * IndexedDBGeneration)) : list (string * IndexedDBGeneration) :=
  match l with
  | [] => [kv]
  | kv' :: l' =>
      if String.leb kv.1 kv'.1 then kv :: l else kv' :: insert_by_key kv l'
  end.

Definition in_key_order (s : gmap string IndexedDBGeneration)
    : list IndexedDBGeneration :=
  (foldr insert_by_key [] (map_to_list s)).*2.

(** [index(name).getAll(query)] on an index whose keys are strings or
    arrays of strings: the records whose index key equals the query, in
    key order.  [matches] says whether a record's index key is the
    queried one. *)
Definition index_getAll (matches : IndexedDBGeneration → bool)
    (s : gmap string IndexedDBGeneration) : list IndexedDBGeneration :=
  List.filter matches (in_key_order s).

Definition by_userId (u : string) (g : IndexedDBGeneration) : bool :=
  String.eqb (userId g) u.
Definition by_userId_type (u : string) (t : generation_type)
    (g : IndexedDBGeneration) : bool :=
  String.eqb (userId g) u && bool_decide (type g = t).
(** The records whose [synced] flag is [b].  No index gives them: a
    boolean is not a valid key, so the index on [synced] has no entry
    for any record (see [store_index_boolean]). *)
Definition by_synced (b : bool) (g : IndexedDBGeneration) : bool :=
  bool_decide (synced g = Some b).

(** *** Query options of [getGenerations] *)

Inductive sort_field := by_createdAt | by_updatedAt.
Inductive sort_order := asc | desc.

Record Options := {
  o_type : option generation_type;
  o_limit : option Z;
  o_offset : option Z;
  o_sortBy : option sort_field;
  o_sortOrder : option sort_order;
  o_syncedOnly : option bool;
  o_favoritesOnly : option bool;
}.

(** [{}] *)
Definition no_options : Options :=
  {| o_type := None; o_limit := None; o_offset := None; o_sortBy := None;
     o_sortOrder := None; o_syncedOnly := None; o_favoritesOnly := None |}.

(** [a[sortBy] instanceof Date ? a[sortBy].getTime() : a[sortBy]], as
    the number it is in the subtraction that follows: a string or
    [undefined] gives [NaN]. *)
Definition sort_value (f : sort_field) (g : IndexedDBGeneration) : option Z :=
  match (match f with
         | by_createdAt => Some (createdAt g)
         | by_updatedAt => updatedAt g
         end) with
  | Some (DateObj ms) => Some ms
  | Some (IsoString _) => None
  | None => None
  end.

Definition minus (a b : option Z) : option Z :=
  match a, b with
  | Some x, Some y => Some (x - y)
  | _, _ => None
  end.

Definition comparator (f : sort_field) (o : sort_order)
    (a b : IndexedDBGeneration) : option Z :=
  let aValue := sort_value f a in
  let bValue := sort_value f b in
  match o with
  | desc => minus bValue aValue
  | asc => minus aValue bValue
  end.

(** *** JSON text of a list of records

    [JSON.stringify] writes a [Date] as its ISO string and a [Blob] as
    [{}], leaves out the keys whose value is [undefined], writes [null]
    for [undefined] in an array and for a number that is not finite,
    and throws on a BigInt; the text is represented by the tree it
    denotes. *)

(** What [JSON.parse] reads back from what [JSON.stringify] writes for a
    value: [None] when [stringify] throws, [Some None] when the value is
    left out. *)
Fixpoint meta_json (v : meta_value) : option (option meta_value) :=
  match v with
  | MetaString _ | MetaIsoString _ | MetaNumber _ | MetaBool _ | MetaNull =>
      Some (Some v)
  | MetaNaN => Some (Some MetaNull)
  | MetaUndefined => Some None
  | MetaDate ms => Some (Some (MetaIsoString ms))
  | MetaBigInt _ => None
  | MetaBlob _ => Some (Some (MetaObject []))
  | MetaArray items =>
      (λ l, Some (MetaArray l)) <$>
      (fix each (l : list meta_value) : option (list meta_value) :=
         match l with
         | [] => Some []
         | x :: l' =>
             match meta_json x, each l' with
             | Some y, Some ys => Some (default MetaNull y :: ys)
             | _, _ => None
             end
         end) items
  | MetaObject entries =>
      (λ l, Some (MetaObject l)) <$>
      (fix each (l : list (string * meta_value))
         : option (list (string * meta_value)) :=
         match l with
         | [] => Some []
         | (k, x) :: l' =>
             match meta_json x, each l' with
             | Some (Some y), Some ys => Some ((k, y) :: ys)
             | Some None, Some ys => Some ys
             | _, _ => None
             end
         end) entries
  end.

Definition metadata_json (m : Metadata) : option Metadata :=
  match meta_json (MetaObject m) with
  | Some (Some (MetaObject m')) => Some m'
  | _ => None
  end.

Inductive json_result := JText (s : string) | JEmptyObject.

Record json_generation := {
  j_id : string;
  j_userId : string;
  j_type : generation_type;
  j_prompt : string;
  j_result : json_result;
  j_model : option string;
  j_metadata : option Metadata;
  j_createdAt : Z;
  j_updatedAt : option Z;
  j_synced : option bool;
  j_syncAttempts : option Z;
  j_lastSyncAttempt : option Z;
  j_tags : option (list string);
  j_favorite : option bool;
}.

(** The tree written for one record, if it can be written. *)
Definition toJSON (g : IndexedDBGeneration) : option json_generation :=
  (λ m,
     {| j_id := id g; j_userId := userId g; j_type := type g;
        j_prompt := prompt g;
        j_result := match result g with
                    | Text s => JText s
                    | BlobData _ => JEmptyObject
                    | EmptyObject => JEmptyObject
                    end;
        j_model := model g; j_metadata := m;
        j_createdAt := instant (createdAt g);
        j_updatedAt := instant <$> updatedAt g;
        j_synced := synced g; j_syncAttempts := syncAttempts g;
        j_lastSyncAttempt := instant <$> lastSyncAttempt g;
        j_tags := tags g; j_favorite := favorite g |})
  <$> match metadata g with
      | None => Some None
      | Some m => Some <$> metadata_json m
      end.

(** [JSON.stringify(generations, null, 2)]: [None] when it throws. *)
Definition JSON_stringify (l : list IndexedDBGeneration)
    : option (list json_generation) :=
  mapM toJSON l.

(** [JSON.parse(text) as IndexedDBGeneration[]]: no reviver, so the
    date fields stay strings. *)
Definition fromJSON (j : json_generation) : IndexedDBGeneration :=
  {| id := j_id j; userId := j_userId j; type := j_type j;
     prompt := j_prompt j;
     result := match j_result j with
               | JText s => Text s
               | JEmptyObject => EmptyObject
               end;
     model := j_model j; metadata := j_metadata j;
     createdAt := IsoString (j_createdAt j);
     updatedAt := IsoString <$> j_updatedAt j;
     synced := j_synced j; syncAttempts := j_syncAttempts j;
     lastSyncAttempt := IsoString <$> j_lastSyncAttempt j;
     tags := j_tags j; favorite := j_favorite j |}.


(** *** class IndexedDBManager *)

Section Manager.
Context (env : Env).

(** [Date.now()] *)
Definition Date_now : M Z := λ w, (Ok (clock env (ticks w)), tick w).
(** [new Date()] *)
Definition new_Date : M date := λ w, (Ok (DateObj (clock env (ticks w))), tick w).
(** [Math.random().toString(36).substr(2, 9)] *)
Definition random_suffix : M string := λ w, (Ok (random env (ticks w)), tick w).

Definition store_get (i : string) : M (option IndexedDBGeneration) :=
  λ w, (Ok (store w !! i), w).
Definition store_put (g : IndexedDBGeneration) : M unit :=
  λ w, (Ok tt, set_store (<[id g := g]> (store w)) w).
Definition store_delete (i : string) : M unit :=
  λ w, (Ok tt, set_store (delete i (store w)) w).
Definition store_clear : M unit :=
  λ w, (Ok tt, set_store ∅ w).
Definition store_index (matches : IndexedDBGeneration → bool)
    : M (list IndexedDBGeneration) :=
  λ w, (Ok (index_getAll matches (store w)), w).
(** [index(name).getAll(b)] with a boolean [b] on an index over a boolean
    field.  A boolean is not a valid key: a record gets no entry in such
    an index, and the query is refused with a [DataError] by an engine
    that checks it, and finds no record otherwise. *)
Definition store_index_boolean (b : bool) : M (list IndexedDBGeneration) :=
  λ w, if strict_keys w then (Throw InvalidKey, w) else (Ok [], w).
(** [results.sort(cmp)] *)
Definition array_sort (cmp : IndexedDBGeneration → IndexedDBGeneration → option Z)
    (results : list IndexedDBGeneration) : M (list IndexedDBGeneration) :=
  λ w, (Ok (JS.sort (unspecified_order w) cmp results), w).

Definition initialize : M unit :=
  λ w, if db w then (Ok tt, w)
       else if engine w then (Ok tt, set_db true w)
       else (Throw InitializationFailed, w).

(** [if (!this.db) throw new Error('Database not initialized')] *)
Definition require_db : M unit :=
  λ w, if db w then (Ok tt, w) else (Throw NotInitialized, w).

Definition saveGeneration (data : NewGeneration) : M string :=
  initialize;;
  require_db;;
  try_catch
    (t ← Date_now;
     r ← random_suffix;
     let i := "gen_" +:+ pretty t +:+ "_" +:+ r in
     now ← new_Date;
     let generationData :=
       {| id := i;
          userId := n_userId data;
          type := n_type data;
          prompt := n_prompt data;
          result := n_result data;
          model := n_model data;
          metadata := n_metadata data;
          createdAt := now;
          updatedAt := Some now;
          synced := Some false;
          syncAttempts := Some 0;
          lastSyncAttempt := n_lastSyncAttempt data;
          tags := Some (default [] (n_tags data));
          favorite := Some false |} in
     store_put generationData;;
     mret i)
    (λ e, throw (SaveFailed e)).

Definition updateGeneration (i : string) (updates : Partial) : M unit :=
  initialize;;
  require_db;;
  try_catch
    (existing ← store_get i;
     match existing with
     | None => throw (NotFound i)
     | Some existing =>
         now ← new_Date;
         match p_id updates with
         | Some None => throw InvalidKey
         | _ => store_put (spread existing updates now)
         end
     end)
    throw.

Definition getGenerations (u : string) (options : option Options)
    : M (list IndexedDBGeneration) :=
  initialize;;
  require_db;;
  try_catch
    (let o := default no_options options in
     let limit := default 100 (o_limit o) in
     let offset := default 0 (o_offset o) in
     let sortBy := default by_createdAt (o_sortBy o) in
     let sortOrder := default desc (o_sortOrder o) in
     results ← match o_type o with
               | Some t => store_index (by_userId_type u t)
               | None => store_index (by_userId u)
               end;
     let results :=
       match o_syncedOnly o with
       | Some syncedOnly =>
           List.filter (λ item, bool_decide (synced item = Some syncedOnly))
             results
       | None => results
       end in
     let results :=
       match o_favoritesOnly o with
       | Some true =>
           List.filter (λ item, bool_decide (favorite item = Some true)) results
       | _ => results
       end in
     results ← array_sort (comparator sortBy sortOrder) results;
     mret (JS.slice results offset (offset + limit)))
    throw.

Definition getGenerationById (i : string) : M (option IndexedDBGeneration) :=
  initialize;;
  require_db;;
  try_catch (store_get i) (λ _, mret None).

Definition getUnsyncedGenerations : M (list IndexedDBGeneration) :=
  initialize;;
  require_db;;
  try_catch (store_index_boolean false) throw.

Definition markAsSynced (i : string) : M unit :=
  initialize;;
  require_db;;
  try_catch
    (now ← new_Date;
     updateGeneration i (synced_fields now))
    throw.

Definition markSyncFailed (i : string) : M unit :=
  initialize;;
  require_db;;
  try_catch
    (generation ← getGenerationById i;
     match generation with
     | Some generation =>
         now ← new_Date;
         updateGeneration i
           (failed_fields (JS.add1 (default 0 (syncAttempts generation))) now)
     | None => mret tt
     end)
    throw.

Definition deleteGeneration (i : string) : M unit :=
  initialize;;
  require_db;;
  try_catch (store_delete i) throw.

Definition clearAll : M unit :=
  initialize;;
  require_db;;
  try_catch store_clear throw.

Definition toggleFavorite (i : string) : M bool :=
  try_catch
    (generation ← getGenerationById i;
     match generation with
     | None => throw GenerationNotFound
     | Some generation =>
         let newFavoriteStatus := negb (default false (favorite generation)) in
         updateGeneration i (favorite_fields newFavoriteStatus);;
         mret newFavoriteStatus
     end)
    throw.

Definition addTags (i : string) (new : list string) : M unit :=
  try_catch
    (generation ← getGenerationById i;
     match generation with
     | None => throw GenerationNotFound
     | Some generation =>
         let existingTags := default [] (tags generation) in
         let newTags := JS.dedupe (existingTags ++ new) in
         updateGeneration i (tags_fields newTags)
     end)
    throw.

Definition exportData (u : string) : M (list json_generation) :=
  try_catch
    (generations ←
       getGenerations u
         (Some {| o_type := None; o_limit := Some 10000; o_offset := None;
                  o_sortBy := None; o_sortOrder := None;
                  o_syncedOnly := None; o_favoritesOnly := None |});
     match JSON_stringify generations with
     | Some text => mret text
     | None => throw NotSerializable
     end)
    throw.

(** [for (const item of data) { await store.put(item); importedCount++ }] *)
Fixpoint import_loop (data : list IndexedDBGeneration) (importedCount : nat)
    : M nat :=
  match data with
  | [] => mret importedCount
  | item :: rest => store_put item;; import_loop rest (S importedCount)
  end.

Definition importData (data : list IndexedDBGeneration) : M nat :=
  initialize;;
  require_db;;
  try_catch (import_loop data 0%nat) throw.

End Manager.

(** *** Bulk deletion, clean-up, statistics and search *)

(** [await Promise.all(ids.map(id => store.delete(id)))]: the requests are
    placed in the order of [ids], in one transaction. *)
Fixpoint delete_each (ids : list string) : M unit :=
  match ids with
  | [] => mret tt
  | i :: rest => store_delete i;; delete_each rest
  end.

Definition deleteGenerations (ids : list string) : M unit :=
  initialize;;
  require_db;;
  try_catch (delete_each ids) throw.

(** [24 * 60 * 60 * 1000] *)
Definition day_ms : Z := 24 * 60 * 60 * 1000.

(** The time values a [Date] can hold; [new Date(t)] is an invalid date
    for any other [t]. *)
Definition valid_time (t : Z) : bool :=
  (-8640000000000000 <=? t) && (t <=? 8640000000000000).

(** Membership in [IDBKeyRange.upperBound(cutoffDate)] of the entry a
    record has in the index on [createdAt].  Keys are ordered by type
    first, dates before strings: the range holds the records whose
    [createdAt] is a [Date] not after the cutoff, the cutoff included,
    and no record whose [createdAt] is a string. *)
Definition in_upper_bound (cutoff : Z) (g : IndexedDBGeneration) : bool :=
  match createdAt g with
  | DateObj ms => ms <=? cutoff
  | IsoString _ => false
  end.

(** The entries a cursor opened on that range walks through: by
    [createdAt], then by primary key. *)
Definition cursor_entries (cutoff : Z) (s : gmap string IndexedDBGeneration)
    : list IndexedDBGeneration :=
  JS.stable_sort (λ a b, Some (instant (createdAt a) - instant (createdAt b)))
    (List.filter (in_upper_bound cutoff) (in_key_order s)).

(** [while (cursor) { await cursor.delete(); deletedCount++;
    cursor = await cursor.continue(); }]; the primary key of an entry is
    the [id] of its record. *)
Fixpoint cursor_loop (entries : list IndexedDBGeneration) (deletedCount : nat)
    : M nat :=
  match entries with
  | [] => mret deletedCount
  | g :: rest => store_delete (id g);; cursor_loop rest (S deletedCount)
  end.

(** How [clearOldGenerations] ends: with the count, with an error of the
    manager, or with the [DataError] that [IDBKeyRange.upperBound] throws
    for an invalid date. *)
Inductive cleanup :=
| Cleaned (deletedCount : nat)
| Failed (e : error)
| DataError.

(** [getStorageStats] *)
Record Counts := {
  c_image : nat;
  c_video : nat;
  c_audio : nat;
  c_code : nat;
  c_conversation : nat;
}.

Record StorageStats := {
  totalSize : nat;
  counts : Counts;
  syncedCount : nat;
  unsyncedCount : nat;
  failedSyncCount : nat;
  oldestItem : option date;
  newestItem : option date;
}.

(** [counts[gen.type]++] *)
Definition count_type (t : generation_type) (c : Counts) : Counts :=
  match t with
  | image =>
      {| c_image := S (c_image c); c_video := c_video c; c_audio := c_audio c;
         c_code := c_code c; c_conversation := c_conversation c |}
  | video =>
      {| c_image := c_image c; c_video := S (c_video c); c_audio := c_audio c;
         c_code := c_code c; c_conversation := c_conversation c |}
  | audio =>
      {| c_image := c_image c; c_video := c_video c; c_audio := S (c_audio c);
         c_code := c_code c; c_conversation := c_conversation c |}
  | code =>
      {| c_image := c_image c; c_video := c_video c; c_audio := c_audio c;
         c_code := S (c_code c); c_conversation := c_conversation c |}
  | conversation =>
      {| c_image := c_image c; c_video := c_video c; c_audio := c_audio c;
         c_code := c_code c; c_conversation := S (c_conversation c) |}
  end.

(** [new Blob([s]).size]: the length of the UTF-8 encoding of [s].  A
    [string] lists the code units of the JavaScript string, which [ascii]
    limits to 0..255: one byte below 128, two from there on. *)
Fixpoint utf8_size (s : string) : nat :=
  match s with
  | EmptyString => 0%nat
  | String c s' =>
      ((if (Ascii.nat_of_ascii c <? 128)%nat then 1 else 2) + utf8_size s')%nat
  end.

(** The size added for one record: [gen.result.size] for a blob, the
    UTF-8 size for a string, nothing for anything else. *)
Definition result_size (r : result_data) : nat :=
  match r with
  | BlobData b => length b
  | Text s => utf8_size s
  | EmptyObject => 0%nat
  end.

Section Reports.
Context (iso_lt : Z → Z → bool) (toLowerCase : string → string).

(** [a < b] on the values of [createdAt]: two [Date] objects compare by
    time; a [Date] and an ISO string compare as a number and [NaN], hence
    false; two ISO strings compare as strings, which is [iso_lt] on their
    instants (the order of time for the years 0000 to 9999). *)
Definition date_lt (a b : date) : bool :=
  match a, b with
  | DateObj x, DateObj y => x <? y
  | IsoString x, IsoString y => iso_lt x y
  | _, _ => false
  end.

(** The body of [generations.forEach]. *)
Definition stats_step (st : StorageStats) (gen : IndexedDBGeneration)
    : StorageStats :=
  {| totalSize := (totalSize st + result_size (result gen))%nat;
     counts := count_type (type gen) (counts st);
     syncedCount :=
       if JS.truthy (JS.boolean (synced gen)) then S (syncedCount st)
       else syncedCount st;
     unsyncedCount :=
       if JS.truthy (JS.boolean (synced gen)) then unsyncedCount st
       else S (unsyncedCount st);
     failedSyncCount :=
       if 3 <? default 0 (syncAttempts gen)
       then S (failedSyncCount st) else failedSyncCount st;
     oldestItem :=
       match oldestItem st with
       | None => Some (createdAt gen)
       | Some o => if date_lt (createdAt gen) o then Some (createdAt gen)
                   else Some o
       end;
     newestItem :=
       match newestItem st with
       | None => Some (createdAt gen)
       | Some n => if date_lt n (createdAt gen) then Some (createdAt gen)
                   else Some n
       end |}.

Definition no_stats : StorageStats :=
  {| totalSize := 0;
     counts := {| c_image := 0; c_video := 0; c_audio := 0; c_code := 0;
                  c_conversation := 0 |};
     syncedCount := 0; unsyncedCount := 0; failedSyncCount := 0;
     oldestItem := None; newestItem := None |}.

Definition getStorageStats (u : string) : M StorageStats :=
  try_catch
    (generations ←
       getGenerations u
         (Some {| o_type := None; o_limit := Some 10000; o_offset := None;
                  o_sortBy := None; o_sortOrder := None;
                  o_syncedOnly := None; o_favoritesOnly := None |});
     mret (foldl stats_step no_stats generations))
    throw.

(** [s.includes(q)] *)
Fixpoint includes (s q : string) : bool :=
  if String.prefix q s then true
  else match s with
       | EmptyString => false
       | String _ s' => includes s' q
       end.

(** The callback of [generations.filter] in [searchGenerations]; an
    absent [model] or [tags] gives [undefined], which is falsy. *)
Definition search_hit (lowerQuery : string) (gen : IndexedDBGeneration) : bool :=
  includes (toLowerCase (prompt gen)) lowerQuery
  || match model gen with
     | Some m => includes (toLowerCase m) lowerQuery
     | None => false
     end
  || match tags gen with
     | Some ts => existsb (λ tag, includes (toLowerCase tag) lowerQuery) ts
     | None => false
     end.

Definition searchGenerations (u query : string) (t : option generation_type)
    : M (list IndexedDBGeneration) :=
  try_catch
    (generations ←
       getGenerations u
         (Some {| o_type := t; o_limit := Some 1000; o_offset := None;
                  o_sortBy := None; o_sortOrder := None;
                  o_syncedOnly := None; o_favoritesOnly := None |});
     let lowerQuery := toLowerCase query in
     mret (List.filter (search_hit lowerQuery) generations))
    throw.

End Reports.

Section Cleanup.
Context (env : Env).

(** [clearOldGenerations(olderThanDays = 30)]: the cutoff is
    [new Date(Date.now() - olderThanDays * 24 * 60 * 60 * 1000)]. *)
Definition clearOldGenerations (olderThanDays : option Z) : World → cleanup * World :=
  λ w,
    match (initialize;; require_db;; Date_now env) w with
    | (Throw e, w') => (Failed e, w')
    | (Ok now, w') =>
        let cutoff := now - default 30 olderThanDays * day_ms in
        if valid_time cutoff then
          match cursor_loop (cursor_entries cutoff (store w')) 0%nat w' with
          | (Ok deletedCount, w'') => (Cleaned deletedCount, w'')
          | (Throw e, w'') => (Failed e, w'')
          end
        else (DataError, w')
    end.

End Cleanup.

End IndexedDB.

(* ===================================================================== *)
(** ** hooks/use-indexdb.ts                                              *)
(* ===================================================================== *)

Module UseIndexDB.
Import IndexedDB.

Section Hook.
Context (env : Env).

(** [saveGeneration.mutationFn]; [user] is [user?.id]. *)
Definition saveGeneration (user : option string) (data : NewGeneration)
    : M string :=
  match user with
  | None => throw NotAuthenticated
  | Some uid =>
      IndexedDB.saveGeneration env
        {| n_userId := uid;
           n_type := n_type data;
           n_prompt := n_prompt data;
           n_result := n_result data;
           n_model := n_model data;
           n_metadata := n_metadata data;
           n_updatedAt := n_updatedAt data;
           n_syncAttempts := n_syncAttempts data;
           n_lastSyncAttempt := n_lastSyncAttempt data;
           n_tags := n_tags data;
           n_favorite := n_favorite data |}
  end.

(** [blobToBase64] *)
Definition blobToBase64 (b : Blob) : M string :=
  match readAsDataURL env b with
  | Some s => mret s
  | None => throw BlobConversionFailed
  end.

(** [{ ...item, result: resultData }] *)
Definition with_result (item : IndexedDBGeneration) (r : result_data)
    : IndexedDBGeneration :=
  {| id := id item; userId := userId item; type := type item;
     prompt := prompt item; result := r; model := model item;
     metadata := metadata item; createdAt := createdAt item;
     updatedAt := updatedAt item; synced := synced item;
     syncAttempts := syncAttempts item;
     lastSyncAttempt := lastSyncAttempt item; tags := tags item;
     favorite := favorite item |}.

(** [await axios.post('/api/database/sync', body, { timeout: 30000 })]:
    the body is serialised, which can throw; then the request goes out,
    and the call returns or rejects. *)
Definition axios_post (body : IndexedDBGeneration) : M unit :=
  λ w, match toJSON body with
       | None => (Throw NotSerializable, w)
       | Some _ =>
           if post env (posted w) body
           then (Ok tt, add_posted body w)
           else (Throw RequestFailed, add_posted body w)
       end.

(** [let resultData = item.result; if (item.result instanceof Blob)
    { resultData = await blobToBase64(item.result); }] *)
Definition resultData (item : IndexedDBGeneration) : M result_data :=
  match result item with
  | BlobData b => s ← blobToBase64 b; mret (Text s)
  | r => mret r
  end.

(** The body of [for (const item of unsynced)]. *)
Definition sync_item (item : IndexedDBGeneration) : M unit :=
  try_catch
    (r ← resultData item;
     axios_post (with_result item r);;
     markAsSynced env (id item))
    throw.

Fixpoint sync_loop (unsynced : list IndexedDBGeneration) : M unit :=
  match unsynced with
  | [] => mret tt
  | item :: rest => sync_item item;; sync_loop rest
  end.

(** [syncToServer.mutationFn] *)
Definition syncToServer : M nat :=
  try_catch
    (unsynced ← getUnsyncedGenerations;
     sync_loop unsynced;;
     mret (length unsynced))
    throw.

End Hook.

(** *** useAutoSync

    The effect of [useAutoSync] as a transition system.  [syncToServer()]
    is [mutate] of a mutation without a scope: every call starts a run
    of [mutationFn] at once.  A run ends when its promise settles. *)
Record AutoSync := {
  isActive : bool;
  initialSync : bool;    (* the 2 s timeout is pending *)
  intervalId : bool;     (* the interval timer is armed *)
  running : nat;         (* runs of [syncToServer] not yet settled *)
  started : nat;         (* runs of [syncToServer] started so far *)
}.

Inductive event :=
| TimeoutFires      (* the callback of [setTimeout(..., 2000)] runs *)
| IntervalFires     (* the callback of [setInterval(..., interval)] runs *)
| PassSettles       (* one run of [syncToServer] resolves or rejects *)
| Cleanup.          (* the function returned by the effect runs *)

(** The effect body once [isReady && user] holds. *)
Definition activate : AutoSync :=
  {| isActive := true; initialSync := true; intervalId := true;
     running := 0; started := 0 |}.

(** [if (isActive) { syncToServer(); }] *)
Definition callback (s : AutoSync) : AutoSync :=
  if isActive s
  then {| isActive := isActive s; initialSync := initialSync s;
          intervalId := intervalId s;
          running := S (running s); started := S (started s) |}
  else s.

Definition step (s : AutoSync) (e : event) : AutoSync :=
  match e with
  | TimeoutFires =>
      if initialSync s
      then callback {| isActive := isActive s; initialSync := false;
                       intervalId := intervalId s;
                       running := running s; started := started s |}
      else s
  | IntervalFires =>
      if intervalId s then callback s else s
  | PassSettles =>
      {| isActive := isActive s; initialSync := initialSync s;
         intervalId := intervalId s;
         running := pred (running s); started := started s |}
  | Cleanup =>
      {| isActive := false; initialSync := false; intervalId := false;
         running := running s; started := started s |}
  end.

Definition run (s : AutoSync) (es : list event) : AutoSync :=
  foldl step s es.

(** The timer callbacks that found the hook active. *)
Definition triggered (s : AutoSync) (e : event) : bool :=
  match e with
  | TimeoutFires => initialSync s && isActive s
  | IntervalFires => intervalId s && isActive s
  | _ => false
  end.

(** *** The effect and the queries of [useIndexDB] *)





End UseIndexDB.

(* ===================================================================== *)
(** ** hooks/use-subscription.ts                                         *)
(* ===================================================================== *)

Module UseSubscription.

(** [UserSubscription]; only [plan] is read by the functions below. *)
Record UserSubscription := { plan : string; status : string }.

(** [FeatureLimits]: [number | 'unlimited'] per feature. *)
Inductive limit_value := Limit (n : Z) | Unlimited.

Definition freeLimits : gmap string bool :=
  list_to_map
    [ ("imageGeneration", true); ("videoGeneration", false);
      ("audioGeneration", false); ("codeGeneration", true);
      ("highResolution", false); ("apiAccess", false);
      ("prioritySupport", false); ("customModels", false);
      ("batchProcessing", false) ].

Definition basicLimits : gmap string bool :=
  list_to_map
    [ ("imageGeneration", true); ("videoGeneration", true);
      ("audioGeneration", true); ("codeGeneration", true);
      ("highResolution", true); ("apiAccess", false);
      ("prioritySupport", false); ("customModels", false);
      ("batchProcessing", true) ].

(** [hasFeatureAccess]; [subscription] is [None] while the query has no
    data.  The declared result is [boolean]; what [limits[feature] ||
    false] evaluates to is a value. *)
Definition hasFeatureAccess (subscription : option UserSubscription)
    (feature : string) : JS.value :=
  match subscription with
  | None => JS.Bool false
  | Some subscription =>
      if String.eqb (plan subscription) "free" then
        JS.or (JS.read JS.Bool (JS.get freeLimits feature)) (JS.Bool false)
      else if String.eqb (plan subscription) "basic" then
        JS.or (JS.read JS.Bool (JS.get basicLimits feature)) (JS.Bool false)
      else if String.eqb (plan subscription) "pro" then
        JS.Bool true
      else JS.Bool false
  end.

(** [usage[feature] || 0] *)
Definition current_usage (usage : gmap string Z) (feature : string) : JS.value :=
  JS.or (JS.read JS.Number (JS.get usage feature)) (JS.Number 0).

(** [hasReachedLimit]; [usage] is the usage query's data and [limits]
    is [currentPlan?.limits], [None] when there is none. *)
Definition hasReachedLimit (usage : option (gmap string Z))
    (limits : option (gmap string limit_value)) (feature : string) : bool :=
  match usage, limits with
  | Some usage, Some limits =>
      let limit := JS.get limits feature in
      let current := current_usage usage feature in
      match limit with
      | JS.Own (Limit n) => JS.ge current n
      | _ => false
      end
  | _, _ => false
  end.

(** [number | 'unlimited'], the number possibly [NaN]. *)
Inductive quota := Remaining (n : Z) | RemainingUnlimited | RemainingNaN.

(** [getRemainingQuota] *)
Definition getRemainingQuota (usage : option (gmap string Z))
    (limits : option (gmap string limit_value)) (feature : string) : quota :=
  match usage, limits with
  | Some usage, Some limits =>
      match JS.get limits feature with
      | JS.Own Unlimited => RemainingUnlimited
      | JS.Own (Limit n) =>
          match JS.to_number (current_usage usage feature) with
          | Some c => Remaining (Z.max 0 (n - c))
          | None => RemainingNaN
          end
      | _ => RemainingNaN
      end
  | _, _ => Remaining 0
  end.

End UseSubscription.

(* ===================================================================== *)
(** ** Properties                                                        *)
(* ===================================================================== *)

Import IndexedDB.

(** The manager can get hold of the database: the handle is there, or
    [openDB] would succeed. *)
Definition usable (w : World) : Prop := db w = true ∨ engine w = true.

(** Every record sits under its own id ([keyPath: 'id']). *)
Definition keyed (s : gmap string IndexedDBGeneration) : Prop :=
  map_Forall (λ k g, id g = k) s.

Global Instance keyed_dec s : Decision (keyed s).
Proof. unfold keyed. apply _. Defined.

Global Instance usable_decision w : Decision (usable w).
Proof. unfold usable. apply _. Defined.

(** [item] with its result as text in place of a blob, if the blob can
    be read. *)
Definition converted (env : Env) (item : IndexedDBGeneration)
    : option IndexedDBGeneration :=
  match result item with
  | BlobData b =>
      (λ s, UseIndexDB.with_result item (Text s)) <$> readAsDataURL env b
  | r => Some (UseIndexDB.with_result item r)
  end.

(** The body of the request made for [item] by the sync loop, if one
    is made: the blob conversion that precedes it succeeds and the body
    can be serialised. *)
Definition request_body (env : Env) (item : IndexedDBGeneration)
    : option IndexedDBGeneration :=
  body ← converted env item;
  match toJSON body with
  | Some _ => Some body
  | None => None
  end.

(** The record left by [markAsSynced] when its two clock readings are
    [t1] and [t2]. *)
Definition marked_synced (e : IndexedDBGeneration) (t1 t2 : Z) : IndexedDBGeneration :=
  spread e (synced_fields (DateObj t1)) (DateObj t2).

(** [l1] are items whose request succeeds, each judged by the remote end
    against the requests made before it. *)
Definition all_accepted (env : Env) (history l1 : list IndexedDBGeneration) : Prop :=
  ∀ i x, l1 !! i = Some x →
    ∃ b, request_body env x = Some b ∧
         post env (history ++ omap (request_body env) (take i l1)) b = true.

(** The item at the head of [l2], if there is one, has its request
    rejected. *)
Definition head_rejected (env : Env) (history l2 : list IndexedDBGeneration) : Prop :=
  match l2 with
  | [] => True
  | r :: _ => ∃ b, request_body env r = Some b ∧ post env history b = false
  end.

(** The id [saveGeneration] builds when called in world [w]:
    [`gen_${Date.now()}_${Math.random().toString(36).substr(2, 9)}`]. *)
Definition generated_id (env : Env) (w : World) : string :=
  "gen_" +:+ pretty (clock env (ticks w)) +:+ "_" +:+ random env (S (ticks w)).

(** [syncAttempts || 0] *)
Definition attempts (g : IndexedDBGeneration) : Z := default 0 (syncAttempts g).

(** The operations of the store and of the sync hook that write records
    without deleting any. *)
Inductive operation :=
| Save (user : option string) (data : NewGeneration)
| Update (i : string) (updates : Partial)
| MarkSynced (i : string)
| MarkSyncFailed (i : string)
| ToggleFavorite (i : string)
| AddTags (i : string) (new : list string)
| Import (data : list IndexedDBGeneration)
| SyncPass.

(** The world an operation leaves, whether it returns or throws. *)
Definition perform (env : Env) (op : operation) (w : World) : World :=
  match op with
  | Save user data => (UseIndexDB.saveGeneration env user data w).2
  | Update i updates => (updateGeneration env i updates w).2
  | MarkSynced i => (markAsSynced env i w).2
  | MarkSyncFailed i => (markSyncFailed env i w).2
  | ToggleFavorite i => (toggleFavorite env i w).2
  | AddTags i new => (addTags env i new w).2
  | Import data => (importData data w).2
  | SyncPass => (UseIndexDB.syncToServer env w).2
  end.

(** Every record of [s] is still in [s'], in a state related to its old
    one by [R]. *)
Definition advances (R : IndexedDBGeneration → IndexedDBGeneration → Prop)
    (s s' : gmap string IndexedDBGeneration) : Prop :=
  ∀ k g, s !! k = Some g → ∃ g', s' !! k = Some g' ∧ R g g'.

(** The fields [updates] of an update of the record under [i] hold no
    id of another record: no [id] key, or [id: undefined], or [i]
    itself. *)
Definition no_other_id (i : string) (updates : Partial) : Prop :=
  p_id updates = None ∨ p_id updates = Some None ∨
  p_id updates = Some (Some i).

(** What is asked of an operation for the record [g] under key [k] to
    move along [R]: a save does not reuse [k]; an update carries no id
    but that of the record it is aimed at, and moves [g] along [R] if it
    is aimed at [k]; imported records that carry the id [k] are
    [R]-successors of [g].  The other operations choose their own
    fields. *)
Definition permitted (R : IndexedDBGeneration → IndexedDBGeneration → Prop)
    (env : Env) (op : operation) (w : World) (k : string)
    (g : IndexedDBGeneration) : Prop :=
  match op with
  | Save _ _ => generated_id env w ≠ k
  | Update i updates =>
      no_other_id i updates ∧
      (i = k → ∀ now, R g (spread g updates now))
  | Import data => ∀ item, item ∈ data → id item = k → R g item
  | _ => True
  end.

(** [synced], once true, stays true. *)
Definition stays_synced (g g' : IndexedDBGeneration) : Prop :=
  synced g = Some true → synced g' = Some true.

(** [syncAttempts] does not go down. *)
Definition attempts_grow (g g' : IndexedDBGeneration) : Prop :=
  attempts g ≤ attempts g'.

(** The side conditions under which an operation cannot take [synced]
    back: a save does not reuse the key; an update carries no id but
    that of the record it is aimed at and, aimed at this record, carries
    no [synced] entry but [true] (neither [false] nor [undefined]);
    imported records with this id are synced. *)
Definition keeps_synced (env : Env) (op : operation) (w : World) (k : string)
    : Prop :=
  match op with
  | Save _ _ => generated_id env w ≠ k
  | Update i updates =>
      no_other_id i updates ∧
      (i = k → p_synced updates = None ∨ p_synced updates = Some (Some true))
  | Import data =>
      ∀ item, item ∈ data → id item = k → synced item = Some true
  | _ => True
  end.

(** The side conditions under which an operation cannot lower
    [syncAttempts] of the record [g] under [k]: a save does not reuse the
    key; an update carries no id but that of the record it is aimed at
    and, aimed at this record, carries no smaller [syncAttempts];
    imported records with this id carry no smaller one. *)
Definition keeps_attempts (env : Env) (op : operation) (w : World) (k : string)
    (g : IndexedDBGeneration) : Prop :=
  match op with
  | Save _ _ => generated_id env w ≠ k
  | Update i updates =>
      no_other_id i updates ∧
      (i = k → match p_syncAttempts updates with
               | None => True
               | Some n => attempts g ≤ default 0 n
               end)
  | Import data => ∀ item, item ∈ data → id item = k → attempts g ≤ attempts item
  | _ => True
  end.

(** [g'] is [g] but for [updatedAt] and [lastSyncAttempt]. *)
Definition same_but_timestamps (g g' : IndexedDBGeneration) : Prop :=
  id g' = id g ∧ userId g' = userId g ∧ type g' = type g ∧
  prompt g' = prompt g ∧ result g' = result g ∧ model g' = model g ∧
  metadata g' = metadata g ∧ createdAt g' = createdAt g ∧
  synced g' = synced g ∧ syncAttempts g' = syncAttempts g ∧
  tags g' = tags g ∧ favorite g' = favorite g.

(** The filters of a query taken together: the user, and the type, the
    sync state and the favorites flag when they are asked for. *)
Definition selected (u : string) (o : Options) (g : IndexedDBGeneration) : bool :=
  String.eqb (userId g) u
  && match o_type o with
     | Some t => bool_decide (type g = t)
     | None => true
     end
  && match o_syncedOnly o with
     | Some b => bool_decide (synced g = Some b)
     | None => true
     end
  && match o_favoritesOnly o with
     | Some true => bool_decide (favorite g = Some true)
     | _ => true
     end.

(** The options in force: [options || {}] and the defaults of the
    destructuring. *)
Definition limit_of (options : option Options) : Z :=
  default 100 (o_limit (default no_options options)).
Definition offset_of (options : option Options) : Z :=
  default 0 (o_offset (default no_options options)).
Definition sortBy_of (options : option Options) : sort_field :=
  default by_createdAt (o_sortBy (default no_options options)).
Definition sortOrder_of (options : option Options) : sort_order :=
  default desc (o_sortOrder (default no_options options)).

(** The records a query is about, filtered and then sorted, in the
    world [w]. *)
Definition filtered_sorted (u : string) (options : option Options)
    (w : World) : list IndexedDBGeneration :=
  JS.sort (unspecified_order w)
    (comparator (sortBy_of options) (sortOrder_of options))
    (List.filter (selected u (default no_options options))
       (in_key_order (store w))).

(** A query as the specification words it: filter, then sort, then skip
    [offset] records and keep [limit]. *)
Definition filter_sort_page (u : string) (options : option Options)
    (w : World) : list IndexedDBGeneration :=
  take (Z.to_nat (limit_of options))
    (drop (Z.to_nat (offset_of options)) (filtered_sorted u options w)).

(** [a] may stand before [b] in a list sorted on field [f] in order [o];
    both hold a [Date] object in that field. *)
Definition ordered_by (f : sort_field) (o : sort_order)
    (a b : IndexedDBGeneration) : Prop :=
  match sort_value f a, sort_value f b with
  | Some x, Some y =>
      match o with
      | desc => y ≤ x
      | asc => x ≤ y
      end
  | _, _ => False
  end.





(** A record after [JSON.stringify] and [JSON.parse]; the record itself
    when it cannot be written. *)
Definition revive (g : IndexedDBGeneration) : IndexedDBGeneration :=
  match toJSON g with
  | Some j => fromJSON j
  | None => g
  end.



(** The store after the [put]s of an import. *)
Definition put_all (s : gmap string IndexedDBGeneration)
    (l : list IndexedDBGeneration) : gmap string IndexedDBGeneration :=
  foldl (λ s g, <[id g := g]> s) s l.

(** *** Sample data *)

Module Sample.

Definition record (i u : string) (t : Z) (s : bool) (n : Z)
    : IndexedDBGeneration :=
  {| id := i; userId := u; type := image; prompt := "a lighthouse at dusk";
     result := Text "https://cdn.example/lighthouse.png";
     model := Some "dall-e"; metadata := None;
     createdAt := DateObj t; updatedAt := Some (DateObj t);
     synced := Some s; syncAttempts := Some n; lastSyncAttempt := None;
     tags := Some []; favorite := Some false |}.

Definition r1 := record "gen_1" "user_1" 1000 false 0.
Definition r2 := record "gen_2" "user_1" 2000 false 0.
Definition r3 := record "gen_3" "user_1" 3000 false 0.
(** A record that has been synced after two failed attempts. *)
Definition done1 := record "gen_1" "user_1" 1000 true 2.

(** A record whose result is binary. *)
Definition photo : IndexedDBGeneration :=
  {| id := "gen_9"; userId := "user_1"; type := image; prompt := "upload.png";
     result := BlobData [Byte.x89; Byte.x50; Byte.x4e; Byte.x47];
     model := None; metadata := None;
     createdAt := DateObj 9000; updatedAt := Some (DateObj 9000);
     synced := Some false; syncAttempts := Some 0; lastSyncAttempt := None;
     tags := Some []; favorite := Some false |}.

(** The clock advances by one millisecond per reading; the remote end
    rejects the record [gen_2] and accepts the others. *)
Definition env : Env :=
  {| clock := λ n, 1700000000000 + Z.of_nat n;
     random := λ _, "k3j9x0q1z";
     readAsDataURL := λ _, Some "data:image/png;base64,iVBORw==";
     post := λ _ body, negb (String.eqb (id body) "gen_2") |}.

(** A browser that refuses invalid keys and leaves a list as it is
    when the comparator is not consistent. *)
Definition world (l : list IndexedDBGeneration) : World :=
  {| store := list_to_map ((λ g, (id g, g)) <$> l);
     db := false; engine := true; ticks := 0; posted := [];
     strict_keys := true; unspecified_order := λ _ _, [] |}.

(** The same with an engine that answers a query on an invalid key with
    no record. *)
Definition lenient (l : list IndexedDBGeneration) : World :=
  {| store := list_to_map ((λ g, (id g, g)) <$> l);
     db := false; engine := true; ticks := 0; posted := [];
     strict_keys := false; unspecified_order := λ _ _, [] |}.

Definition data : NewGeneration :=
  {| n_userId := "overwritten"; n_type := code; n_prompt := "quicksort in OCaml";
     n_result := Text "let rec qsort = ..."; n_model := Some "chatgpt";
     n_metadata := Some [("language", MetaString "ocaml")]; n_updatedAt := None;
     n_syncAttempts := None; n_lastSyncAttempt := None; n_tags := None;
     n_favorite := None |}.

(** [{ synced: false }] *)
Definition unsync : Partial :=
  {| p_id := None; p_userId := None; p_type := None; p_prompt := None;
     p_result := None; p_model := None; p_metadata := None;
     p_createdAt := None; p_updatedAt := None; p_synced := Some (Some false);
     p_syncAttempts := None; p_lastSyncAttempt := None; p_tags := None;
     p_favorite := None |}.

(** [{ synced: undefined }] *)
Definition no_flag : Partial :=
  {| p_id := None; p_userId := None; p_type := None; p_prompt := None;
     p_result := None; p_model := None; p_metadata := None;
     p_createdAt := None; p_updatedAt := None; p_synced := Some None;
     p_syncAttempts := None; p_lastSyncAttempt := None; p_tags := None;
     p_favorite := None |}.

(** [{ id: 'gen_1' }] *)
Definition rename : Partial :=
  {| p_id := Some (Some "gen_1"); p_userId := None; p_type := None;
     p_prompt := None; p_result := None; p_model := None; p_metadata := None;
     p_createdAt := None; p_updatedAt := None; p_synced := None;
     p_syncAttempts := None; p_lastSyncAttempt := None; p_tags := None;
     p_favorite := None |}.

(** [{ syncAttempts: 0 }] *)
Definition reset_attempts : Partial :=
  {| p_id := None; p_userId := None; p_type := None; p_prompt := None;
     p_result := None; p_model := None; p_metadata := None;
     p_createdAt := None; p_updatedAt := None; p_synced := None;
     p_syncAttempts := Some (Some 0); p_lastSyncAttempt := None;
     p_tags := None; p_favorite := None |}.

(** [{ limit: n }] *)
Definition limit (n : Z) : Options :=
  {| o_type := None; o_limit := Some n; o_offset := None; o_sortBy := None;
     o_sortOrder := None; o_syncedOnly := None; o_favoritesOnly := None |}.

Definition free : UseSubscription.UserSubscription :=
  {| UseSubscription.plan := "free"; UseSubscription.status := "active" |}.
Definition basic : UseSubscription.UserSubscription :=
  {| UseSubscription.plan := "basic"; UseSubscription.status := "active" |}.

(** A plan that allows no image generation at all. *)
Definition limits : gmap string UseSubscription.limit_value :=
  {[ "imageGeneration" := UseSubscription.Limit 0 ]}.


(** A hook with one run of [syncToServer] in flight. *)
Definition busy : UseIndexDB.AutoSync :=
  {| UseIndexDB.isActive := true; UseIndexDB.initialSync := false;
     UseIndexDB.intervalId := true; UseIndexDB.running := 1;
     UseIndexDB.started := 1 |}.

(** A world whose database cannot be opened. *)
Definition broken : World :=
  {| store := ∅; db := false; engine := false; ticks := 0; posted := [];
     strict_keys := true; unspecified_order := λ _ _, [] |}.

(** A record made one second before the clock of [env] starts. *)
Definition recent := record "gen_4" "user_1" 1699999999000 false 0.


(** A favourite that carries tags. *)
Definition tagged : IndexedDBGeneration :=
  {| id := "gen_5"; userId := "user_1"; type := audio;
     prompt := "waves on a pebble beach"; result := Text "https://cdn.example/waves.mp3";
     model := None; metadata := None;
     createdAt := DateObj 5000; updatedAt := None;
     synced := Some false; syncAttempts := None; lastSyncAttempt := None;
     tags := Some ["sea"; "night"]; favorite := Some true |}.

End Sample.


(** *** Further notions used in the properties *)

(** [g'] is [g] but for [favorite] and [updatedAt]. *)
Definition same_but_favorite (g g' : IndexedDBGeneration) : Prop :=
  id g' = id g ∧ userId g' = userId g ∧ type g' = type g ∧
  prompt g' = prompt g ∧ result g' = result g ∧ model g' = model g ∧
  metadata g' = metadata g ∧ createdAt g' = createdAt g ∧
  synced g' = synced g ∧ syncAttempts g' = syncAttempts g ∧
  lastSyncAttempt g' = lastSyncAttempt g ∧ tags g' = tags g.

(** [g'] is [g] but for [tags] and [updatedAt]. *)
Definition same_but_tags (g g' : IndexedDBGeneration) : Prop :=
  id g' = id g ∧ userId g' = userId g ∧ type g' = type g ∧
  prompt g' = prompt g ∧ result g' = result g ∧ model g' = model g ∧
  metadata g' = metadata g ∧ createdAt g' = createdAt g ∧
  synced g' = synced g ∧ syncAttempts g' = syncAttempts g ∧
  lastSyncAttempt g' = lastSyncAttempt g ∧ favorite g' = favorite g.

(** What the user put into a record: everything but the sync
    bookkeeping ([synced], [lastSyncAttempt]) and [updatedAt]. *)
Definition same_content (g g' : IndexedDBGeneration) : Prop :=
  id g' = id g ∧ userId g' = userId g ∧ type g' = type g ∧
  prompt g' = prompt g ∧ result g' = result g ∧ model g' = model g ∧
  metadata g' = metadata g ∧ createdAt g' = createdAt g ∧
  syncAttempts g' = syncAttempts g ∧ tags g' = tags g ∧
  favorite g' = favorite g.

(** The store after deleting the keys [ids] one after the other. *)
Definition delete_all (s : gmap string IndexedDBGeneration) (ids : list string)
    : gmap string IndexedDBGeneration :=
  foldl (λ s i, delete i s) s ids.

(** The cutoff [clearOldGenerations] computes when called in world [w]. *)
Definition cutoff_of (env : Env) (olderThanDays : option Z) (w : World) : Z :=
  clock env (ticks w) - default 30 olderThanDays * day_ms.

(** [{ type: t, limit: n }], [t] possibly [undefined]. *)
Definition type_limit (t : option generation_type) (n : Z) : Options :=
  {| o_type := t; o_limit := Some n; o_offset := None; o_sortBy := None;
     o_sortOrder := None; o_syncedOnly := None; o_favoritesOnly := None |}.

(** The sum of the counts per type. *)
Definition total (c : Counts) : nat :=
  (c_image c + c_video c + c_audio c + c_code c + c_conversation c)%nat.


(** [{ ...o, offset: k, limit: n }] *)
Definition page (o : Options) (k n : Z) : Options :=
  {| o_type := o_type o; o_limit := Some n; o_offset := Some k;
     o_sortBy := o_sortBy o; o_sortOrder := o_sortOrder o;
     o_syncedOnly := o_syncedOnly o; o_favoritesOnly := o_favoritesOnly o |}.

(** The record [item] that [importData] leaves under the key [i]: the
    last one of [data] with that id. *)
Definition last_with_id (data : list IndexedDBGeneration) (i : string)
    : option IndexedDBGeneration :=
  last (List.filter (λ g, String.eqb (id g) i) data).

Ltac unfold_monad :=
  unfold mbind, M_bind, bind, mret, M_ret, ret, throw, try_catch in *.

(** *** The prelude of every method: [await this.initialize()] and the
    check of [this.db] *)

Lemma with_db {A} (c : M A) (w : World) :
  usable w →
  (initialize ≫= λ _, require_db ≫= λ _, c) w = c (set_db true w).
Proof.
  intros [H | H]; unfold_monad; unfold initialize, require_db, set_db.
  - rewrite H. destruct w; simpl in *; subst; reflexivity.
  - destruct (db w) eqn:E.
    + rewrite E. destruct w; simpl in *; subst; reflexivity.
    + rewrite H. simpl. reflexivity.
Qed.

Lemma without_db {A} (c : M A) (w : World) :
  ¬ usable w →
  (initialize ≫= λ _, require_db ≫= λ _, c) w = (Throw InitializationFailed, w).
Proof.
  intros H. unfold_monad; unfold initialize, require_db, usable in *.
  destruct (db w) eqn:E1; [tauto |].
  destruct (engine w) eqn:E2; [tauto | reflexivity].
Qed.

Lemma usable_dec (w : World) : usable w ∨ ¬ usable w.
Proof. destruct (decide (usable w)); auto. Qed.

(** *** [updateGeneration] *)

Lemma updateGeneration_found env i u w e :
  usable w →
  store w !! i = Some e →
  p_id u ≠ Some None →
  let g := spread e u (DateObj (clock env (ticks w))) in
  updateGeneration env i u w
  = (Ok tt, set_store (<[id g := g]> (store w)) (tick (set_db true w))).
Proof.
  intros Hu He Hid g. unfold updateGeneration. rewrite with_db by assumption.
  unfold_monad. unfold store_get, new_Date, store_put. simpl.
  rewrite He. by destruct (p_id u) as [[j |] |].
Qed.

(** With [id: undefined] in the fields the merged object has no key:
    [put] refuses it and nothing is stored. *)
Lemma updateGeneration_no_key env i u w e :
  usable w →
  store w !! i = Some e →
  p_id u = Some None →
  updateGeneration env i u w = (Throw InvalidKey, tick (set_db true w)).
Proof.
  intros Hu He Hid. unfold updateGeneration. rewrite with_db by assumption.
  unfold_monad. unfold store_get, new_Date, store_put. simpl.
  rewrite He, Hid. reflexivity.
Qed.

Lemma updateGeneration_missing env i u w :
  usable w →
  store w !! i = None →
  updateGeneration env i u w = (Throw (NotFound i), set_db true w).
Proof.
  intros Hu He. unfold updateGeneration. rewrite with_db by assumption.
  unfold_monad. unfold store_get. simpl. rewrite He. reflexivity.
Qed.

Lemma updateGeneration_unusable env i u w :
  ¬ usable w →
  updateGeneration env i u w = (Throw InitializationFailed, w).
Proof. intros Hu. unfold updateGeneration. by rewrite without_db. Qed.

Lemma getGenerationById_usable i w :
  usable w →
  getGenerationById i w = (Ok (store w !! i), set_db true w).
Proof.
  intros Hu. unfold getGenerationById. rewrite with_db by assumption.
  reflexivity.
Qed.

Lemma getGenerationById_unusable i w :
  ¬ usable w →
  getGenerationById i w = (Throw InitializationFailed, w).
Proof. intros Hu. unfold getGenerationById. by rewrite without_db. Qed.

(** *** Key order and indexes *)

Lemma insert_by_key_perm kv l : insert_by_key kv l ≡ₚ kv :: l.
Proof.
  induction l as [| kv' l IH]; simpl; [done |].
  destruct (String.leb kv.1 kv'.1); [done |].
  rewrite IH. apply Permutation_swap.
Qed.

Lemma in_key_order_perm (s : gmap string IndexedDBGeneration) :
  in_key_order s ≡ₚ (map_to_list s).*2.
Proof.
  unfold in_key_order. apply fmap_Permutation.
  induction (map_to_list s) as [| kv l IH]; simpl; [done |].
  rewrite insert_by_key_perm. by rewrite IH.
Qed.

Lemma elem_of_in_key_order (s : gmap string IndexedDBGeneration) g :
  g ∈ in_key_order s ↔ ∃ k, s !! k = Some g.
Proof.
  rewrite in_key_order_perm, list_elem_of_fmap. split.
  - intros [[k g'] [-> H]]. exists k. by apply elem_of_map_to_list.
  - intros [k H]. exists (k, g). split; [done |]. by apply elem_of_map_to_list.
Qed.

Lemma in_key_order_ids (s : gmap string IndexedDBGeneration) :
  keyed s → NoDup (id <$> in_key_order s).
Proof.
  intros Hk. rewrite in_key_order_perm.
  assert (id <$> (map_to_list s).*2 = (map_to_list s).*1) as ->.
  { rewrite <- list_fmap_compose. apply list_fmap_ext.
    intros _ [k g] H%list_elem_of_lookup_2. simpl.
    apply Hk. by apply elem_of_map_to_list. }
  apply NoDup_fst_map_to_list.
Qed.

Lemma filter_sublist {A} (f : A → bool) (l : list A) : sublist (List.filter f l) l.
Proof.
  induction l as [| x l IH]; simpl; [constructor |].
  destruct (f x); by constructor.
Qed.

Lemma elem_of_filter {A} (f : A → bool) (l : list A) x :
  x ∈ List.filter f l ↔ f x = true ∧ x ∈ l.
Proof. rewrite !list_elem_of_In, filter_In. tauto. Qed.

Lemma elem_of_index_getAll matches s g :
  g ∈ index_getAll matches s ↔ matches g = true ∧ ∃ k, s !! k = Some g.
Proof.
  unfold index_getAll. by rewrite elem_of_filter, elem_of_in_key_order.
Qed.

Lemma index_getAll_ids matches s :
  keyed s → NoDup (id <$> index_getAll matches s).
Proof.
  intros Hk. eapply sublist_NoDup; [apply (in_key_order_ids s Hk) |].
  apply fmap_sublist, filter_sublist.
Qed.

Lemma getUnsyncedGenerations_usable w :
  usable w →
  getUnsyncedGenerations w
  = (if strict_keys w then Throw InvalidKey else Ok [], set_db true w).
Proof.
  intros Hu. unfold getUnsyncedGenerations. rewrite with_db by done.
  unfold_monad. unfold store_index_boolean. simpl.
  by destruct (strict_keys w).
Qed.

(** *** Running computations step by step *)

Lemma bind_ok {A B} (c : M A) (k : A → M B) w a w' :
  c w = (Ok a, w') → (c ≫= k) w = k a w'.
Proof. intros H. unfold_monad. by rewrite H. Qed.

Lemma bind_throw {A B} (c : M A) (k : A → M B) w e w' :
  c w = (Throw e, w') → (c ≫= k) w = (Throw e, w').
Proof. intros H. unfold_monad. by rewrite H. Qed.

Lemma try_rethrow {A} (c : M A) w : try_catch c throw w = c w.
Proof. unfold_monad. by destruct (c w) as [[a | e] w']. Qed.

(** *** [markAsSynced] and one turn of the sync loop *)

Lemma markAsSynced_found env i w e :
  usable w →
  store w !! i = Some e →
  let g := marked_synced e (clock env (ticks w)) (clock env (S (ticks w))) in
  markAsSynced env i w
  = (Ok tt, set_store (<[id g := g]> (store w)) (tick (tick (set_db true w)))).
Proof.
  intros Hu He g. unfold markAsSynced. rewrite with_db by assumption.
  rewrite try_rethrow.
  erewrite bind_ok by reflexivity.
  rewrite (updateGeneration_found env i _ _ e); [| left; reflexivity | exact He | done].
  reflexivity.
Qed.

Lemma resultData_ok env item body w :
  request_body env item = Some body →
  ∃ r, UseIndexDB.resultData env item w = (Ok r, w) ∧
       UseIndexDB.with_result item r = body ∧
       is_Some (toJSON body).
Proof.
  unfold request_body, converted, UseIndexDB.resultData, UseIndexDB.blobToBase64.
  destruct (result item) as [s | b |]; simpl.
  - destruct (toJSON _) eqn:E; intros [= <-]. eexists. by rewrite E.
  - destruct (readAsDataURL env b) as [s |]; simpl; [| discriminate].
    destruct (toJSON _) eqn:E; intros [= <-]. eexists. by rewrite E.
  - destruct (toJSON _) eqn:E; intros [= <-]. eexists. by rewrite E.
Qed.

Lemma sync_item_ok env item body w :
  usable w →
  store w !! id item = Some item →
  request_body env item = Some body →
  post env (posted w) body = true →
  ∃ w', UseIndexDB.sync_item env item w = (Ok tt, w') ∧
        usable w' ∧
        posted w' = posted w ++ [body] ∧
        store w'
        = <[id item := marked_synced item (clock env (ticks w))
                         (clock env (S (ticks w)))]> (store w).
Proof.
  intros Hu Hi Hb Hp. unfold UseIndexDB.sync_item. rewrite try_rethrow.
  destruct (resultData_ok env item body w Hb) as (r & Hr & <- & [j Hj]).
  erewrite bind_ok by exact Hr.
  erewrite bind_ok; last first.
  { unfold UseIndexDB.axios_post. rewrite Hj, Hp. reflexivity. }
  rewrite (markAsSynced_found env _ _ item); [| exact Hu | exact Hi].
  eexists. split; [reflexivity |]. split; [left; reflexivity |].
  split; reflexivity.
Qed.

Lemma sync_item_rejected env item body w :
  request_body env item = Some body →
  post env (posted w) body = false →
  UseIndexDB.sync_item env item w = (Throw RequestFailed, add_posted body w).
Proof.
  intros Hb Hp. unfold UseIndexDB.sync_item. rewrite try_rethrow.
  destruct (resultData_ok env item body w Hb) as (r & Hr & <- & [j Hj]).
  erewrite bind_ok by exact Hr.
  erewrite bind_throw; [reflexivity |].
  unfold UseIndexDB.axios_post. by rewrite Hj, Hp.
Qed.

(** *** The sync loop over a fetched list *)

Lemma sync_loop_run env l1 : ∀ l2 w,
  usable w →
  NoDup (id <$> (l1 ++ l2)) →
  (∀ x, x ∈ l1 ++ l2 → store w !! id x = Some x) →
  all_accepted env (posted w) l1 →
  head_rejected env (posted w ++ omap (request_body env) l1) l2 →
  ∃ w',
    UseIndexDB.sync_loop env (l1 ++ l2) w
    = (match l2 with [] => Ok tt | _ :: _ => Throw RequestFailed end, w') ∧
    posted w' = posted w ++ omap (request_body env) (l1 ++ take 1 l2) ∧
    (∀ x, x ∈ l1 → ∃ t1 t2, store w' !! id x = Some (marked_synced x t1 t2)) ∧
    (∀ k, k ∉ id <$> l1 → store w' !! k = store w !! k).
Proof.
  induction l1 as [| x l1 IH]; intros l2 w Hu Hnd Hst Hok Hrej.
  - simpl in *. destruct l2 as [| r l2]; simpl.
    + exists w. rewrite app_nil_r. split_and!; try done.
      intros x Hx. by apply elem_of_nil in Hx.
    + destruct Hrej as (b & Hb & Hp). rewrite app_nil_r in Hp.
      exists (add_posted b w). split_and!.
      * erewrite bind_throw; [reflexivity |]. by apply sync_item_rejected.
      * simpl. by rewrite Hb.
      * intros y Hy. by apply elem_of_nil in Hy.
      * done.
  - simpl in Hnd. apply NoDup_cons in Hnd as [Hx Hnd].
    destruct (Hok 0%nat x eq_refl) as (b & Hb & Hp).
    simpl in Hp. rewrite app_nil_r in Hp.
    destruct (sync_item_ok env x b w Hu) as (w1 & Hrun & Hu1 & Hpo1 & Hst1);
      [apply Hst; left | done | done |].
    destruct (IH l2 w1) as (w' & Hrun' & Hpo' & Hsy' & Hot'); try done.
    { intros y Hy. rewrite Hst1, lookup_insert_ne.
      - apply Hst. by right.
      - intros Heq. apply Hx. rewrite Heq. by apply list_elem_of_fmap_2. }
    { intros i y Hy. destruct (Hok (S i) y Hy) as (b' & Hb' & Hp').
      exists b'. split; [done |]. rewrite Hpo1, <- app_assoc.
      simpl in Hp'. by rewrite Hb in Hp'. }
    { rewrite Hpo1, <- app_assoc. simpl in Hrej. by rewrite Hb in Hrej. }
    exists w'. split_and!.
    + simpl. erewrite bind_ok by exact Hrun. exact Hrun'.
    + rewrite Hpo', Hpo1, <- app_assoc. simpl. by rewrite Hb.
    + intros y [-> | Hy]%elem_of_cons.
      * exists (clock env (ticks w)), (clock env (S (ticks w))).
        rewrite Hot'; [by rewrite Hst1, lookup_insert_eq |].
        intros Hin. apply Hx. apply list_elem_of_fmap in Hin as (z & Hz & Hin).
        rewrite Hz. apply list_elem_of_fmap_2, elem_of_app. by left.
      * by apply Hsy'.
    + intros k Hk. rewrite fmap_cons, not_elem_of_cons in Hk.
      destruct Hk as [Hk1 Hk2]. rewrite Hot' by done.
      by rewrite Hst1, lookup_insert_ne.
Qed.

(** C1.  [getUnsyncedGenerations] asks the index on [synced] for the key
    [false], which is no valid key: whatever the store holds, the fetch
    throws (or, on an engine that does not check the key, finds nothing).
    So a pass of [syncToServer] pushes no record at all: it makes no
    request, leaves every record as it was, the unsynced ones unsynced,
    and throws (or returns 0).  The loop that pushes records one after
    the other and stops at the first failure is never handed a record. *)
Theorem sync_pass_pushes_nothing env w :
  usable w →
  ∃ w',
    getUnsyncedGenerations w
    = (if strict_keys w then Throw InvalidKey else Ok [], w') ∧
    UseIndexDB.syncToServer env w
    = (if strict_keys w then Throw InvalidKey else Ok 0%nat, w') ∧
    posted w' = posted w ∧
    store w' = store w.
Proof.
  intros Hu. exists (set_db true w).
  split; [by apply getUnsyncedGenerations_usable |].
  split; [| done].
  unfold UseIndexDB.syncToServer. rewrite try_rethrow.
  destruct (strict_keys w) eqn:Es.
  - erewrite bind_throw; [done |].
    rewrite getUnsyncedGenerations_usable by done. by rewrite Es.
  - erewrite bind_ok; last first.
    { rewrite getUnsyncedGenerations_usable by done. by rewrite Es. }
    reflexivity.
Qed.

(** *** How the writing operations move the records of the store *)

Lemma keyed_insert s i g : id g = i → keyed s → keyed (<[i := g]> s).
Proof.
  intros Hi Hk k g' H. apply lookup_insert_Some in H as [[<- <-] | [_ H]]; [done |].
  by apply Hk.
Qed.

Lemma keyed_empty : keyed ∅.
Proof. intros k g H. by rewrite lookup_empty in H. Qed.


(** *** What [saveGeneration] and [importData] leave in the store *)

Lemma saveGeneration_store env user data w :
  store (UseIndexDB.saveGeneration env user data w).2 = store w ∨
  ∃ g, id g = generated_id env w ∧
       store (UseIndexDB.saveGeneration env user data w).2
       = <[generated_id env w := g]> (store w).
Proof.
  destruct user as [uid |]; [| by left].
  unfold UseIndexDB.saveGeneration, saveGeneration.
  destruct (usable_dec w) as [Hu | Hu].
  - rewrite with_db by done. right. eexists. split; last reflexivity.
    reflexivity.
  - rewrite without_db by done. by left.
Qed.

Lemma import_loop_run data : ∀ n w,
  import_loop data n w
  = (Ok (n + length data)%nat,
     set_store (put_all (store w) data) w).
Proof.
  induction data as [| item data IH]; intros n w; simpl.
  - rewrite Nat.add_0_r. by destruct w.
  - erewrite bind_ok by reflexivity. rewrite IH. simpl.
    by rewrite Nat.add_succ_r.
Qed.

Lemma importData_usable data w :
  usable w →
  importData data w
  = (Ok (length data),
     set_store (put_all (store w) data) (set_db true w)).
Proof.
  intros Hu. unfold importData. rewrite with_db, try_rethrow by done.
  by rewrite import_loop_run.
Qed.

Lemma importData_store data w :
  store (importData data w).2
  = put_all (store w) data
  ∨ store (importData data w).2 = store w.
Proof.
  destruct (usable_dec w) as [Hu | Hu].
  - left. by rewrite importData_usable.
  - right. unfold importData. by rewrite without_db.
Qed.

Section Evolution.
Context (R : IndexedDBGeneration → IndexedDBGeneration → Prop).
Hypothesis R_refl : ∀ g, R g g.
Hypothesis R_trans : ∀ a b c, R a b → R b c → R a c.
Hypothesis R_synced : ∀ g d now, R g (spread g (synced_fields d) now).
Hypothesis R_failed :
  ∀ g d now, R g (spread g (failed_fields (JS.add1 (attempts g)) d) now).
Hypothesis R_favorite : ∀ g b now, R g (spread g (favorite_fields b) now).
Hypothesis R_tags : ∀ g ts now, R g (spread g (tags_fields ts) now).

Lemma advances_refl s : advances R s s.
Proof. intros k g H. eauto. Qed.

Lemma advances_trans s1 s2 s3 :
  advances R s1 s2 → advances R s2 s3 → advances R s1 s3.
Proof.
  intros H12 H23 k g H. destruct (H12 k g H) as (g2 & H2 & Hr2).
  destruct (H23 k g2 H2) as (g3 & H3 & Hr3). eauto.
Qed.

(** One record rewritten in place. *)
Lemma advances_insert s i e e' :
  s !! i = Some e → R e e' → advances R s (<[i := e']> s).
Proof.
  intros He Hr k g H. destruct (decide (i = k)) as [<- | Hne].
  - rewrite lookup_insert_eq. rewrite He in H. injection H as <-. eauto.
  - rewrite lookup_insert_ne by done. eauto.
Qed.

(** An update whose fields keep the id and move the record at [i]
    along [R]. *)
Lemma updateGeneration_advances env i u w :
  keyed (store w) →
  no_other_id i u →
  (∀ e now, store w !! i = Some e → R e (spread e u now)) →
  keyed (store (updateGeneration env i u w).2) ∧
  advances R (store w) (store (updateGeneration env i u w).2).
Proof.
  intros Hk Hid Hr. destruct (usable_dec w) as [Hu | Hu].
  - destruct (store w !! i) as [e |] eqn:He.
    + destruct (decide (p_id u = Some None)) as [Hno | Hno].
      { rewrite (updateGeneration_no_key env i u w e) by done. simpl.
        split; [done | apply advances_refl]. }
      rewrite (updateGeneration_found env i u w e) by done.
      cbv zeta. unfold snd, set_store, store at 1 3.
      assert (id (spread e u (DateObj (clock env (ticks w)))) = i) as Hi.
      { simpl. destruct Hid as [H | [H | H]]; [| done |]; rewrite H; simpl;
          [by apply Hk | done]. }
      rewrite Hi. split; [by apply keyed_insert |].
      apply advances_insert with e; [done |]. by apply Hr.
    + rewrite updateGeneration_missing by done. simpl.
      split; [done | apply advances_refl].
  - rewrite updateGeneration_unusable by done. simpl.
    split; [done | apply advances_refl].
Qed.

Lemma markAsSynced_advances env i w :
  keyed (store w) →
  keyed (store (markAsSynced env i w).2) ∧
  advances R (store w) (store (markAsSynced env i w).2).
Proof.
  intros Hk. unfold markAsSynced. destruct (usable_dec w) as [Hu | Hu].
  - rewrite with_db, try_rethrow by done.
    erewrite bind_ok by reflexivity.
    apply (updateGeneration_advances env i _ (tick (set_db true w)));
      [done | by left |].
    intros e now _. apply R_synced.
  - rewrite without_db by done. simpl. split; [done | apply advances_refl].
Qed.

Lemma markSyncFailed_advances env i w :
  keyed (store w) →
  keyed (store (markSyncFailed env i w).2) ∧
  advances R (store w) (store (markSyncFailed env i w).2).
Proof.
  intros Hk. unfold markSyncFailed. destruct (usable_dec w) as [Hu | Hu].
  - rewrite with_db, try_rethrow by done.
    erewrite bind_ok; last first.
    { apply getGenerationById_usable. left; reflexivity. }
    simpl. destruct (store w !! i) as [e |] eqn:He.
    + erewrite bind_ok by reflexivity.
      apply (updateGeneration_advances env i _ (tick (set_db true w)));
      [done | by left |].
      intros e' now He'. simpl in He'. rewrite He in He'. injection He' as <-.
      apply R_failed.
    + simpl. split; [done | apply advances_refl].
  - rewrite without_db by done. simpl. split; [done | apply advances_refl].
Qed.

Lemma toggleFavorite_advances env i w :
  keyed (store w) →
  keyed (store (toggleFavorite env i w).2) ∧
  advances R (store w) (store (toggleFavorite env i w).2).
Proof.
  intros Hk. unfold toggleFavorite. rewrite try_rethrow.
  destruct (usable_dec w) as [Hu | Hu].
  - erewrite bind_ok by (by apply getGenerationById_usable).
    simpl. destruct (store w !! i) as [e |] eqn:He.
    + set (u := favorite_fields _).
      pose proof (updateGeneration_advances env i u (set_db true w) Hk
                    (or_introl eq_refl)) as Hup.
      destruct (updateGeneration env i u (set_db true w)) as [[[] | err] w1] eqn:E.
      * erewrite bind_ok by exact E. simpl. apply Hup.
        intros e' now _. apply R_favorite.
      * erewrite bind_throw by exact E. simpl. apply Hup.
        intros e' now _. apply R_favorite.
    + simpl. split; [done | apply advances_refl].
  - erewrite bind_throw by (by apply getGenerationById_unusable).
    simpl. split; [done | apply advances_refl].
Qed.

Lemma addTags_advances env i ts w :
  keyed (store w) →
  keyed (store (addTags env i ts w).2) ∧
  advances R (store w) (store (addTags env i ts w).2).
Proof.
  intros Hk. unfold addTags. rewrite try_rethrow.
  destruct (usable_dec w) as [Hu | Hu].
  - erewrite bind_ok by (by apply getGenerationById_usable).
    simpl. destruct (store w !! i) as [e |] eqn:He.
    + apply (updateGeneration_advances env i _ (set_db true w));
        [done | by left |].
      intros e' now _. apply R_tags.
    + simpl. split; [done | apply advances_refl].
  - erewrite bind_throw by (by apply getGenerationById_unusable).
    simpl. split; [done | apply advances_refl].
Qed.

Lemma sync_item_advances env item w :
  keyed (store w) →
  keyed (store (UseIndexDB.sync_item env item w).2) ∧
  advances R (store w) (store (UseIndexDB.sync_item env item w).2).
Proof.
  intros Hk. unfold UseIndexDB.sync_item. rewrite try_rethrow.
  destruct (UseIndexDB.resultData env item w) as [[r | err] w1] eqn:E1.
  - assert (w1 = w) as ->.
    { unfold UseIndexDB.resultData, UseIndexDB.blobToBase64 in E1.
      destruct (result item); try (by injection E1).
      destruct (readAsDataURL env b); by injection E1. }
    erewrite bind_ok by exact E1.
    destruct (toJSON (UseIndexDB.with_result item r)) as [j |] eqn:Ej;
      [destruct (post env (posted w) (UseIndexDB.with_result item r)) eqn:Ep |].
    + erewrite bind_ok; last first.
      { unfold UseIndexDB.axios_post. rewrite Ej, Ep. reflexivity. }
      apply (markAsSynced_advances env (id item) (add_posted _ w)). done.
    + erewrite bind_throw; last first.
      { unfold UseIndexDB.axios_post. rewrite Ej, Ep. reflexivity. }
      simpl. split; [done | apply advances_refl].
    + erewrite bind_throw; last first.
      { unfold UseIndexDB.axios_post. rewrite Ej. reflexivity. }
      simpl. split; [done | apply advances_refl].
  - assert (store w1 = store w) as Hs.
    { unfold UseIndexDB.resultData, UseIndexDB.blobToBase64 in E1.
      destruct (result item); try discriminate.
      destruct (readAsDataURL env b); [discriminate | by injection E1 as _ <-]. }
    erewrite bind_throw by exact E1. simpl. rewrite Hs.
    split; [done | apply advances_refl].
Qed.

Lemma sync_loop_advances env l : ∀ w,
  keyed (store w) →
  keyed (store (UseIndexDB.sync_loop env l w).2) ∧
  advances R (store w) (store (UseIndexDB.sync_loop env l w).2).
Proof.
  induction l as [| item l IH]; intros w Hk; simpl.
  - split; [done | apply advances_refl].
  - destruct (sync_item_advances env item w Hk) as [Hk1 Ha1].
    destruct (UseIndexDB.sync_item env item w) as [[[] | err] w1] eqn:E.
    + erewrite bind_ok by exact E. simpl in *.
      destruct (IH w1 Hk1) as [Hk2 Ha2]. split; [done |].
      by eapply advances_trans.
    + erewrite bind_throw by exact E. simpl in *. done.
Qed.

Lemma syncToServer_advances env w :
  keyed (store w) →
  keyed (store (UseIndexDB.syncToServer env w).2) ∧
  advances R (store w) (store (UseIndexDB.syncToServer env w).2).
Proof.
  intros Hk. unfold UseIndexDB.syncToServer. rewrite try_rethrow.
  destruct (usable_dec w) as [Hu | Hu].
  - pose proof (getUnsyncedGenerations_usable w Hu) as Hget.
    destruct (strict_keys w).
    + erewrite bind_throw by exact Hget.
      simpl. split; [done | apply advances_refl].
    + erewrite bind_ok by exact Hget.
      simpl. split; [done | apply advances_refl].
  - erewrite bind_throw; last first.
    { unfold getUnsyncedGenerations. by apply without_db. }
    simpl. split; [done | apply advances_refl].
Qed.

Lemma perform_moves env op w k g :
  keyed (store w) →
  store w !! k = Some g →
  permitted R env op w k g →
  ∃ g', store (perform env op w) !! k = Some g' ∧ R g g'.
Proof.
  intros Hk Hg Hp. destruct op as [user data | i u | i | i | i | i ts | data |];
    simpl in *.
  - destruct (saveGeneration_store env user data w) as [-> | (g0 & _ & ->)];
      [eauto |].
    rewrite lookup_insert_ne by done. eauto.
  - destruct Hp as [Hid Hr]. destruct (usable_dec w) as [Hu | Hu].
    + destruct (store w !! i) as [e |] eqn:He.
      * destruct (decide (p_id u = Some None)) as [Hno | Hno].
        { rewrite (updateGeneration_no_key env i u w e) by done. simpl. eauto. }
        rewrite (updateGeneration_found env i u w e) by done.
        cbv zeta. unfold snd, set_store, store at 1.
        assert (id (spread e u (DateObj (clock env (ticks w)))) = i) as ->.
        { simpl. destruct Hid as [H | [H | H]]; [| done |]; rewrite H; simpl;
            [by apply Hk | done]. }
        destruct (decide (i = k)) as [-> | Hne].
        -- rewrite lookup_insert_eq. rewrite Hg in He. injection He as <-.
           eexists. split; [done |]. by apply Hr.
        -- rewrite lookup_insert_ne by done. eauto.
      * rewrite updateGeneration_missing by done. simpl. eauto.
    + rewrite updateGeneration_unusable by done. simpl. eauto.
  - by apply (markAsSynced_advances env i w Hk).
  - by apply (markSyncFailed_advances env i w Hk).
  - by apply (toggleFavorite_advances env i w Hk).
  - by apply (addTags_advances env i ts w Hk).
  - destruct (importData_store data w) as [-> | ->]; [| eauto].
    assert (∃ g', store w !! k = Some g' ∧ R g g') as Hinv by eauto.
    clear Hg Hk. revert Hinv. generalize (store w).
    induction data as [| item data IH]; intros s Hinv; [done |].
    simpl. apply IH.
    + intros it Hit. apply Hp. by right.
    + destruct (decide (id item = k)) as [<- | Hne].
      * rewrite lookup_insert_eq. eexists. split; [done |].
        apply Hp; [by left | done].
      * by rewrite lookup_insert_ne.
  - by apply (syncToServer_advances env w Hk).
Qed.

End Evolution.

(** Every write goes through [store.put], which files the record under
    its own id: [keyed] holds of the empty store and is kept by every
    operation. *)
Lemma keyed_put_all l : ∀ s, keyed s → keyed (put_all s l).
Proof.
  unfold put_all. induction l as [| g l IH]; intros s Hk; simpl; [done |].
  apply IH. by apply keyed_insert.
Qed.

Lemma keyed_perform env op w :
  keyed (store w) → keyed (store (perform env op w)).
Proof.
  intros Hk.
  pose (R := λ _ _ : IndexedDBGeneration, True).
  destruct op as [user data | i u | i | i | i | i ts | data |]; simpl.
  - destruct (saveGeneration_store env user data w) as [-> | (g & Hg & ->)];
      [done |]. by apply keyed_insert.
  - destruct (usable_dec w) as [Hu | Hu].
    + destruct (store w !! i) as [e |] eqn:He.
      * destruct (decide (p_id u = Some None)) as [Hno | Hno].
        { by rewrite (updateGeneration_no_key env i u w e). }
        rewrite (updateGeneration_found env i u w e) by done.
        by apply keyed_insert.
      * by rewrite updateGeneration_missing.
    + by rewrite updateGeneration_unusable.
  - by apply (markAsSynced_advances R).
  - by apply (markSyncFailed_advances R).
  - by apply (toggleFavorite_advances R).
  - by apply (addTags_advances R).
  - destruct (importData_store data w) as [-> | ->]; [| done].
    by apply keyed_put_all.
  - by apply (syncToServer_advances R).
Qed.

(** *** save then getById *)

Lemma saveGeneration_no_user env data w :
  UseIndexDB.saveGeneration env None data w = (Throw NotAuthenticated, w).
Proof. reflexivity. Qed.


(** *** The [synced] flag *)

(** C3, amended.  Take a record with [synced = true] in a store where
    every record sits under its id.  [markAsSynced], [markSyncFailed],
    [toggleFavorite], [addTags] and a sync pass leave it in the store with
    [synced = true]; so does [updateGeneration], provided the partial
    fields carry no id of another record (no id, [id: undefined], on which
    the update throws, or the id of the record updated) and, when aimed at
    this record, carry no [synced] entry other than [true] (neither
    [false] nor [undefined]); so does [importData], provided the imported
    records with this id have [synced = true]; so does [saveGeneration],
    provided the id it generates is not this record's. *)
Theorem synced_is_kept env op w k g :
  keyed (store w) →
  store w !! k = Some g →
  synced g = Some true →
  keeps_synced env op w k →
  ∃ g', store (perform env op w) !! k = Some g' ∧ synced g' = Some true.
Proof.
  intros Hk Hg Hs Hp.
  assert (permitted stays_synced env op w k g) as Hper.
  { destruct op; simpl in *; try done.
    - destruct Hp as [Hid Hsy]. split; [done |]. intros -> now _. simpl.
      by destruct (Hsy eq_refl) as [-> | ->].
    - intros item Hi1 Hi2 _. by apply Hp. }
  destruct (perform_moves stays_synced) with (env := env) (op := op) (w := w)
    (k := k) (g := g) as (g' & Hg' & Hr); try done;
    try (unfold stays_synced; simpl; by auto).
  exists g'. split; [done |]. by apply Hr.
Qed.

(** *** The [syncAttempts] counter *)

Lemma JS_add1_ge n : n ≤ JS.add1 n.
Proof.
  unfold JS.add1.
  destruct (_ && _); [lia |]. destruct (_ <=? _); [| lia].
  destruct (Z.even _); lia.
Qed.

Lemma JS_add1_exact n : - 2 ^ 53 ≤ n < 2 ^ 53 → JS.add1 n = n + 1.
Proof.
  intros [H1 H2]. unfold JS.add1.
  apply Z.leb_le in H1. apply Z.ltb_lt in H2. by rewrite H1, H2.
Qed.

(** C4, amended.  Take a record in a store where every record sits under
    its id, and read [syncAttempts] as the code does ([syncAttempts || 0]).
    [markAsSynced], [markSyncFailed], [toggleFavorite], [addTags] and a
    sync pass leave the record in the store with a counter that is not
    smaller; so does [updateGeneration], provided the partial fields
    carry no id but that of the record they are aimed at and, when
    aimed at this record, carry no smaller counter; so does
    [importData], provided the imported records with this id carry no
    smaller counter; so does [saveGeneration], provided the id it
    generates is not this record's.  And [markSyncFailed] on the record,
    when the database can be opened, sets the counter to the number that
    [+ 1] gives: one more as long as the counter is below 2^53 in size,
    the nearest number the arithmetic of the language has beyond. *)
Theorem attempts_never_decrease env op w k g :
  keyed (store w) →
  store w !! k = Some g →
  keeps_attempts env op w k g →
  (∃ g', store (perform env op w) !! k = Some g' ∧ attempts g ≤ attempts g') ∧
  (op = MarkSyncFailed k → usable w →
   ∃ g', store (perform env op w) !! k = Some g' ∧
         syncAttempts g' = Some (JS.add1 (attempts g)) ∧
         (- 2 ^ 53 ≤ attempts g < 2 ^ 53 →
          syncAttempts g' = Some (attempts g + 1))).
Proof.
  intros Hk Hg Hp. split.
  - assert (permitted attempts_grow env op w k g) as Hper.
    { destruct op; simpl in *; try done.
      destruct Hp as [Hid Hat]. split; [done |]. intros -> now.
      unfold attempts_grow. unfold attempts at 2. simpl.
      specialize (Hat eq_refl).
      destruct (p_syncAttempts updates) as [n |]; simpl; [done |].
      unfold attempts. lia. }
    apply (perform_moves attempts_grow); try done.
    + intros a. unfold attempts_grow. lia.
    + intros a d now. unfold attempts_grow, attempts. simpl. lia.
    + intros a d now. unfold attempts_grow. unfold attempts at 2. simpl.
      apply JS_add1_ge.
    + intros a b now. unfold attempts_grow, attempts. simpl. lia.
    + intros a b now. unfold attempts_grow, attempts. simpl. lia.
  - intros -> Hu. simpl. unfold markSyncFailed.
    rewrite with_db, try_rethrow by done.
    erewrite bind_ok; last first.
    { apply getGenerationById_usable. left; reflexivity. }
    simpl. rewrite Hg. erewrite bind_ok by reflexivity.
    rewrite (updateGeneration_found env k _ _ g); [| left; reflexivity | done | done].
    cbv zeta. unfold snd, set_store, store at 1.
    assert (∀ u now, p_id u = None → id (spread g u now) = k) as Hi.
    { intros u now Hid. simpl. rewrite Hid. simpl. by apply Hk. }
    rewrite Hi by done. rewrite lookup_insert_eq. eexists. split; [done |].
    split; [reflexivity |]. intros Hb. simpl.
    fold (attempts g). by rewrite JS_add1_exact.
Qed.

(** *** [markAsSynced] twice *)

Lemma id_marked_synced e t1 t2 : id (marked_synced e t1 t2) = id e.
Proof. reflexivity. Qed.

(** C5, amended.  On a record that is in the store under its id, a first
    [markAsSynced] sets [synced = true]; a second one returns as well and
    leaves [synced = true]; between the two states of the record only
    [lastSyncAttempt] and [updatedAt] differ, both being set from the
    clock by the second call; no other record changes. *)
Theorem markAsSynced_twice env i w g :
  usable w →
  store w !! i = Some g →
  id g = i →
  ∃ w1 w2 g1 g2,
    markAsSynced env i w = (Ok tt, w1) ∧
    markAsSynced env i w1 = (Ok tt, w2) ∧
    store w1 !! i = Some g1 ∧ synced g1 = Some true ∧
    store w2 !! i = Some g2 ∧ synced g2 = Some true ∧
    same_but_timestamps g1 g2 ∧
    lastSyncAttempt g2 = Some (DateObj (clock env (ticks w1))) ∧
    updatedAt g2 = Some (DateObj (clock env (S (ticks w1)))) ∧
    (∀ j, j ≠ i → store w2 !! j = store w1 !! j).
Proof.
  intros Hu Hg Hi.
  pose proof (markAsSynced_found env i w g Hu Hg) as H1. cbv zeta in H1.
  rewrite id_marked_synced, Hi in H1.
  set (g1 := marked_synced g _ _) in H1.
  set (w1 := set_store _ _) in H1.
  assert (store w1 !! i = Some g1) as Hg1 by apply lookup_insert_eq.
  assert (usable w1) as Hu1 by (left; reflexivity).
  pose proof (markAsSynced_found env i w1 g1 Hu1 Hg1) as H2. cbv zeta in H2.
  assert (id g1 = i) as Hi1 by exact Hi.
  rewrite id_marked_synced, Hi1 in H2.
  set (g2 := marked_synced g1 _ _) in H2.
  set (w2 := set_store _ _) in H2.
  exists w1, w2, g1, g2. split_and!; try done.
  - apply lookup_insert_eq.
  - intros j Hj. simpl. by rewrite lookup_insert_ne.
Qed.

(** *** Sorting and slicing *)

Lemma JS_insert_perm {A} (cmp : A → A → option Z) x l :
  JS.insert cmp x l ≡ₚ x :: l.
Proof.
  induction l as [| y l IH]; simpl; [done |].
  destruct (JS.before cmp y x); [| done].
  rewrite IH. apply Permutation_swap.
Qed.

Lemma JS_stable_sort_perm {A} (cmp : A → A → option Z) l :
  JS.stable_sort cmp l ≡ₚ l.
Proof.
  induction l as [| x l IH]; simpl; [done |].
  fold (JS.stable_sort cmp l). by rewrite JS_insert_perm, IH.
Qed.

Lemma imap_snd {A B} (f : nat → B) (l : list A) :
  (imap (λ i x, (f i, x)) l).*2 = l.
Proof.
  revert f. induction l as [| x l IH]; intros f; [done |].
  simpl. f_equal. apply (IH (f ∘ S)).
Qed.

Lemma JS_arrange_perm {A} ranks (l : list A) : JS.arrange ranks l ≡ₚ l.
Proof.
  unfold JS.arrange. rewrite JS_stable_sort_perm.
  by rewrite (imap_snd (λ i, default 0%nat (ranks !! i))).
Qed.

(** Whatever the engine does where the language leaves it free, [sort]
    rearranges. *)
Lemma JS_sort_perm {A} unspecified (cmp : A → A → option Z) l :
  JS.sort unspecified cmp l ≡ₚ l.
Proof.
  unfold JS.sort. destruct (JS.consistent cmp l).
  - apply JS_stable_sort_perm.
  - apply JS_arrange_perm.
Qed.

(** On items whose comparisons agree with a transitive relation [R], the
    sort puts the list in the order of [R]. *)
Lemma JS_stable_sort_sorted {A} (cmp : A → A → option Z) (R : relation A)
    (P : A → Prop) :
  (∀ a b, P a → P b → JS.before cmp a b = true → R a b) →
  (∀ a b, P a → P b → JS.before cmp a b = false → R b a) →
  (∀ a b c, R a b → R b c → R a c) →
  ∀ l, Forall P l → StronglySorted R (JS.stable_sort cmp l).
Proof.
  intros Hlt Hge Htr.
  assert (∀ x l, P x → Forall P l → StronglySorted R l →
          StronglySorted R (JS.insert cmp x l)) as Hins.
  { intros x l Hx Hl Hs. induction Hs as [| y l Hs IH Hy]; simpl.
    - repeat constructor.
    - apply Forall_cons in Hl as [Hpy Hl].
      destruct (JS.before cmp y x) eqn:E.
      + constructor; [by apply IH |].
        rewrite JS_insert_perm. constructor; [by apply Hlt | done].
      + assert (R x y) as Hxy by (by apply Hge).
        constructor; [by constructor |].
        constructor; [done |].
        eapply Forall_impl; [exact Hy |]. intros z Hz. by eapply Htr. }
  intros l Hl. induction Hl as [| x l Hx Hl IH]; simpl; [constructor |].
  fold (JS.stable_sort cmp l). apply Hins; [done | | done].
  by rewrite JS_stable_sort_perm.
Qed.

Lemma StronglySorted_sublist {A} (R : relation A) l1 l2 :
  sublist l1 l2 → StronglySorted R l2 → StronglySorted R l1.
Proof.
  induction 1 as [| x l1 l2 Hs IH | x l1 l2 Hs IH]; intros H2.
  - constructor.
  - apply StronglySorted_inv in H2 as [H2 Hx]. constructor; [by apply IH |].
    rewrite Forall_forall in *. intros z Hz. apply Hx.
    by eapply elem_of_sublist.
  - apply StronglySorted_inv in H2 as [H2 Hx]. by apply IH.
Qed.

(** With a start and a count that are not negative, [slice] skips and
    keeps. *)
Lemma JS_slice_page {A} (l : list A) (offset limit : Z) :
  0 ≤ offset → 0 ≤ limit →
  JS.slice l offset (offset + limit)
  = take (Z.to_nat limit) (drop (Z.to_nat offset) l).
Proof.
  intros Ho Hl. unfold JS.slice, JS.rel_index.
  destruct (Z.ltb_spec offset 0) as [? | _]; [lia |].
  destruct (Z.ltb_spec (offset + limit) 0) as [? | _]; [lia |].
  set (len := Z.of_nat (length l)).
  destruct (Z.le_gt_cases len offset) as [Hge | Hlt].
  - rewrite !Z.min_r by lia. rewrite Z.sub_diag. simpl.
    rewrite (drop_ge l (Z.to_nat offset)) by lia. by rewrite take_nil.
  - rewrite (Z.min_l offset) by lia.
    apply list_eq. intros i. rewrite !lookup_take.
    destruct (Z.le_gt_cases len (offset + limit)) as [Hge2 | Hlt2].
    + rewrite Z.min_r by lia.
      repeat case_decide; try done; try lia.
      symmetry. apply lookup_ge_None_2. rewrite length_drop. lia.
    + rewrite Z.min_l by lia.
      replace (Z.to_nat (offset + limit - offset)) with (Z.to_nat limit) by lia.
      done.
Qed.

Lemma filter_filter {A} (f g : A → bool) (l : list A) :
  List.filter f (List.filter g l) = List.filter (λ x, g x && f x) l.
Proof.
  induction l as [| x l IH]; simpl; [done |].
  destruct (g x); simpl; [| done]. destruct (f x); by rewrite IH.
Qed.

(** *** [getGenerations] *)

Lemma getGenerations_usable u options w :
  usable w →
  ∃ results,
    getGenerations u options w = (Ok results, set_db true w) ∧
    results
    = JS.slice (filtered_sorted u options w)
        (offset_of options) (offset_of options + limit_of options).
Proof.
  intros Hu. unfold getGenerations. rewrite with_db, try_rethrow by done.
  unfold filtered_sorted, limit_of, offset_of, sortBy_of, sortOrder_of.
  set (o := default no_options options).
  destruct (o_type o) as [t |] eqn:Et;
    destruct (o_syncedOnly o) as [b |] eqn:Es;
    destruct (o_favoritesOnly o) as [[] |] eqn:Ef;
    erewrite bind_ok by reflexivity;
    (eexists; split; [reflexivity |]);
    f_equal; f_equal;
    unfold index_getAll; rewrite ?filter_filter;
    apply filter_ext; intros g;
    unfold selected, by_userId_type, by_userId; fold o;
    rewrite Et, Es, Ef; rewrite ?andb_true_r, ?andb_assoc; reflexivity.
Qed.

Lemma JS_slice_length {A} (l : list A) (start count : Z) :
  0 ≤ count →
  Z.of_nat (length (JS.slice l start (start + count))) ≤ count.
Proof.
  intros Hc. unfold JS.slice, JS.rel_index. rewrite length_take.
  set (len := Z.of_nat (length l)).
  destruct (Z.ltb_spec start 0), (Z.ltb_spec (start + count) 0); lia.
Qed.

Lemma JS_slice_sublist {A} (l : list A) (start stop : Z) :
  sublist (JS.slice l start stop) l.
Proof.
  unfold JS.slice. etrans; [apply sublist_take | apply sublist_drop].
Qed.

Lemma sort_value_ordered f o a b :
  is_Some (sort_value f a) → is_Some (sort_value f b) →
  (JS.before (comparator f o) a b = true → ordered_by f o a b) ∧
  (JS.before (comparator f o) a b = false → ordered_by f o b a).
Proof.
  intros [x Hx] [y Hy]. unfold JS.before, comparator, ordered_by, minus.
  rewrite Hx, Hy. destruct o; split; intros H.
  - apply Z.ltb_lt in H. lia.
  - apply Z.ltb_ge in H. lia.
  - apply Z.ltb_lt in H. lia.
  - apply Z.ltb_ge in H. lia.
Qed.

Lemma ordered_by_trans f o a b c :
  ordered_by f o a b → ordered_by f o b c → ordered_by f o a c.
Proof.
  unfold ordered_by.
  destruct (sort_value f a), (sort_value f b), (sort_value f c), o; try done; lia.
Qed.

(** On records that all hold a [Date] object in the sort field, the
    comparator of the query is consistent: the order of the result is
    the one the language fixes. *)
Lemma comparator_consistent f o l :
  (∀ g, g ∈ l → is_Some (sort_value f g)) →
  JS.consistent (comparator f o) l = true.
Proof.
  intros Hl. unfold JS.consistent.
  apply forallb_forall. intros a Ha%list_elem_of_In.
  apply forallb_forall. intros b Hb%list_elem_of_In.
  apply forallb_forall. intros c Hc%list_elem_of_In.
  destruct (Hl a Ha) as [x Hx], (Hl b Hb) as [y Hy], (Hl c Hc) as [z Hz].
  unfold comparator, minus. rewrite Hx, Hy, Hz.
  destruct o;
    repeat (apply andb_true_intro; split);
    rewrite ?Bool.implb_true_iff, ?andb_true_iff, ?Z.eqb_eq, ?Z.ltb_lt; lia.
Qed.

Lemma JS_sort_consistent {A} unspecified (cmp : A → A → option Z) l :
  JS.consistent cmp l = true →
  JS.sort unspecified cmp l = JS.stable_sort cmp l.
Proof. intros H. unfold JS.sort. by rewrite H. Qed.

(** C6, amended.  For a limit that is not negative (100 when none is
    given), [getGenerations] returns the slice
    [offset, offset + limit) of the list obtained by first keeping the
    records of the store that pass all the filters (user, type,
    [syncedOnly] read as "[synced] equals this value", favorites) and then
    sorting them with the comparator of the requested field and order
    ([createdAt], descending, by default), which rearranges them.  It
    returns at most [limit] records, each one a record of the user that
    passes the filters.  With an offset that is not negative either, the
    slice is: skip [offset] records, keep [limit].  When every record that
    passes the filters holds a [Date] object in the sort field, the
    sorted list is the one the language fixes and the result is in the
    order asked for. *)
Theorem getGenerations_filters_sorts_pages u options w :
  usable w →
  0 ≤ limit_of options →
  ∃ results,
    getGenerations u options w = (Ok results, set_db true w) ∧
    results = JS.slice (filtered_sorted u options w)
                (offset_of options) (offset_of options + limit_of options) ∧
    filtered_sorted u options w
    ≡ₚ List.filter (selected u (default no_options options))
         (in_key_order (store w)) ∧
    Z.of_nat (length results) ≤ limit_of options ∧
    (∀ g, g ∈ results →
       userId g = u ∧ selected u (default no_options options) g = true ∧
       ∃ k, store w !! k = Some g) ∧
    (0 ≤ offset_of options → results = filter_sort_page u options w) ∧
    ((∀ k g, store w !! k = Some g →
             selected u (default no_options options) g = true →
             is_Some (sort_value (sortBy_of options) g)) →
     filtered_sorted u options w
     = JS.stable_sort (comparator (sortBy_of options) (sortOrder_of options))
         (List.filter (selected u (default no_options options))
            (in_key_order (store w))) ∧
     StronglySorted (ordered_by (sortBy_of options) (sortOrder_of options))
       results).
Proof.
  intros Hu Hl. destruct (getGenerations_usable u options w Hu) as (results & Hrun & ->).
  eexists. split; [exact Hrun |]. split; [reflexivity |].
  assert (∀ g, g ∈ filtered_sorted u options w →
          selected u (default no_options options) g = true ∧
          ∃ k, store w !! k = Some g) as Hmem.
  { intros g Hg. unfold filtered_sorted in Hg. rewrite JS_sort_perm in Hg.
    apply elem_of_filter in Hg as [Hs Hg]. split; [done |].
    by apply elem_of_in_key_order. }
  split_and!.
  - apply JS_sort_perm.
  - by apply JS_slice_length.
  - intros g Hg. eapply elem_of_sublist in Hg; [| apply JS_slice_sublist].
    destruct (Hmem g Hg) as [Hs Hk]. split; [| done].
    unfold selected in Hs. apply andb_prop in Hs as [Hs _].
    apply andb_prop in Hs as [Hs _]. apply andb_prop in Hs as [Hs _].
    by apply String.eqb_eq.
  - intros Ho. unfold filter_sort_page. by apply JS_slice_page.
  - intros Hdates.
    assert (∀ g, g ∈ List.filter (selected u (default no_options options))
                       (in_key_order (store w)) →
                 is_Some (sort_value (sortBy_of options) g)) as Hall.
    { intros g Hg. apply elem_of_filter in Hg as [Hs Hg].
      apply elem_of_in_key_order in Hg as [k Hg]. by eapply Hdates. }
    assert (filtered_sorted u options w
            = JS.stable_sort
                (comparator (sortBy_of options) (sortOrder_of options))
                (List.filter (selected u (default no_options options))
                   (in_key_order (store w)))) as Heq.
    { unfold filtered_sorted. apply JS_sort_consistent.
      by apply comparator_consistent. }
    split; [done |].
    eapply StronglySorted_sublist; [apply JS_slice_sublist |].
    rewrite Heq.
    apply (JS_stable_sort_sorted _ _
             (λ g, is_Some (sort_value (sortBy_of options) g))).
    + intros a b Ha Hb. by apply sort_value_ordered.
    + intros a b Ha Hb. by apply sort_value_ordered.
    + apply ordered_by_trans.
    + by apply Forall_forall.
Qed.

(** *** Feature access *)

Import UseSubscription.

Lemma freeLimits_lookup feature :
  freeLimits !! feature
  = if bool_decide (feature ∈ ["imageGeneration"; "codeGeneration"])
    then Some true
    else if bool_decide (feature ∈ ["videoGeneration"; "audioGeneration";
                                     "highResolution"; "apiAccess";
                                     "prioritySupport"; "customModels";
                                     "batchProcessing"])
    then Some false
    else None.
Proof.
  unfold freeLimits. simpl.
  repeat (rewrite lookup_insert; case_decide;
          [subst feature; vm_compute; reflexivity |]).
  rewrite lookup_empty.
  rewrite !bool_decide_eq_false_2; [done | |];
    (intros Hin;
     repeat (apply elem_of_cons in Hin as [Hin | Hin]; [congruence |]);
     by apply elem_of_nil in Hin).
Qed.

Lemma basicLimits_lookup feature :
  basicLimits !! feature
  = if bool_decide (feature ∈ ["imageGeneration"; "codeGeneration";
                               "videoGeneration"; "audioGeneration";
                               "highResolution"; "batchProcessing"])
    then Some true
    else if bool_decide (feature ∈ ["apiAccess"; "prioritySupport";
                                     "customModels"])
    then Some false
    else None.
Proof.
  unfold basicLimits. simpl.
  repeat (rewrite lookup_insert; case_decide;
          [subst feature; vm_compute; reflexivity |]).
  rewrite lookup_empty.
  rewrite !bool_decide_eq_false_2; [done | |];
    (intros Hin;
     repeat (apply elem_of_cons in Hin as [Hin | Hin]; [congruence |]);
     by apply elem_of_nil in Hin).
Qed.

(** The allow-list, for feature names that are not names of members of
    [Object.prototype]: [free] allows exactly image and code generation,
    [basic] those and video, audio, high resolution and batch processing,
    [pro] everything, any other plan nothing. *)
Lemma hasFeatureAccess_allow_list subscription feature :
  JS.inherited feature = None →
  hasFeatureAccess (Some subscription) feature
  = JS.Bool
      (if String.eqb (plan subscription) "free" then
         bool_decide (feature ∈ ["imageGeneration"; "codeGeneration"])
       else if String.eqb (plan subscription) "basic" then
         bool_decide (feature ∈ ["imageGeneration"; "codeGeneration";
                                 "videoGeneration"; "audioGeneration";
                                 "highResolution"; "batchProcessing"])
       else if String.eqb (plan subscription) "pro" then true
       else false).
Proof.
  intros Hin. unfold hasFeatureAccess, JS.get. rewrite Hin.
  destruct (String.eqb (plan subscription) "free").
  - rewrite freeLimits_lookup. repeat case_bool_decide; reflexivity.
  - destruct (String.eqb (plan subscription) "basic");
      [| by destruct (String.eqb (plan subscription) "pro")].
    rewrite basicLimits_lookup. repeat case_bool_decide; reflexivity.
Qed.

Lemma hasFeatureAccess_no_subscription feature :
  hasFeatureAccess None feature = JS.Bool false.
Proof. reflexivity. Qed.

(** C7.  On the free plan, the feature name [constructor] is not in the
    allow-list, yet [hasFeatureAccess] does not return [false]: the
    lookup [freeLimits[feature]] finds the inherited [Object] constructor,
    a truthy value, and [|| false] lets it through.  The same holds on
    the basic plan. *)
Theorem hasFeatureAccess_inherited_name :
  hasFeatureAccess (Some Sample.free) "constructor" = JS.Function "Object" ∧
  JS.truthy (hasFeatureAccess (Some Sample.free) "constructor") = true ∧
  JS.truthy (hasFeatureAccess (Some Sample.basic) "toString") = true.
Proof. vm_compute. done. Qed.

(** *** Quota *)

Lemma current_usage_number usage feature v :
  usage !! feature = Some v → current_usage usage feature = JS.Number v.
Proof.
  intros H. unfold current_usage, JS.get, JS.or. rewrite H. simpl.
  destruct (Z.eqb_spec v 0) as [-> | ?]; reflexivity.
Qed.

Lemma inherited_value feature x :
  JS.inherited feature = Some x → JS.truthy x = true ∧ JS.to_number x = None.
Proof.
  unfold JS.inherited, JS.Object_prototype. cbn [JS.assoc].
  repeat (destruct (String.eqb _ feature); [intros [= <-]; done |]).
  done.
Qed.

(** C8, amended.  When the usage data or the limits of the plan are
    missing, [getRemainingQuota] returns 0 and [hasReachedLimit] returns
    [false], that is, it does not report the limit reached; neither
    throws.  With both at hand, [hasReachedLimit] reports the limit
    reached exactly when the limit of the feature is a number and the
    usage of the feature is at least that number, the usage counting as 0
    when the feature has no entry and its name is not the name of a member
    of [Object.prototype]; so a limit of ['unlimited'], and a limit that
    is absent, are never reported reached. *)
Theorem quota_checks usage limits feature :
  hasReachedLimit None limits feature = false ∧
  hasReachedLimit usage None feature = false ∧
  getRemainingQuota None limits feature = Remaining 0 ∧
  getRemainingQuota usage None feature = Remaining 0 ∧
  ∀ us lim,
    hasReachedLimit (Some us) (Some lim) feature = true ↔
    ∃ n, lim !! feature = Some (Limit n) ∧
         ((∃ v, us !! feature = Some v ∧ n ≤ v) ∨
          (us !! feature = None ∧ JS.inherited feature = None ∧ n ≤ 0)).
Proof.
  split_and!; try (by destruct usage); try done.
  intros us lim. unfold hasReachedLimit, JS.get.
  destruct (lim !! feature) as [[n |] |] eqn:El.
  - destruct (us !! feature) as [v |] eqn:Eu.
    + rewrite (current_usage_number us feature v Eu). unfold JS.ge. simpl.
      rewrite Z.leb_le. split.
      * intros H. exists n. split; [done |]. left. eauto.
      * intros (n' & [= <-] & [(v' & [= <-] & H) | (? & _)]); done.
    + unfold current_usage, JS.get. rewrite Eu.
      destruct (JS.inherited feature) as [x |] eqn:Ei.
      * destruct (inherited_value feature x Ei) as [Ht Hn].
        unfold JS.or, JS.ge. simpl. rewrite Ht, Hn.
        split; [done |].
        intros (n' & _ & [(v' & ? & _) | (_ & ? & _)]); done.
      * simpl. unfold JS.ge. simpl. rewrite Z.leb_le. split.
        -- intros H. exists n. split; [done |]. right. done.
        -- intros (n' & [= <-] & [(v' & ? & _) | (_ & _ & H)]); done.
  - split; [done |]. intros (n' & ? & _). done.
  - split; [by destruct (JS.inherited feature) |]. intros (n' & ? & _). done.
Qed.

(** *** Export and import *)















(** *** Auto-sync *)

Lemma cleanup_is_final s es :
  UseIndexDB.run (UseIndexDB.step s UseIndexDB.Cleanup) es
  = {| UseIndexDB.isActive := false; UseIndexDB.initialSync := false;
       UseIndexDB.intervalId := false;
       UseIndexDB.running :=
         Nat.iter (length (List.filter
                             (λ e, match e with
                                   | UseIndexDB.PassSettles => true
                                   | _ => false
                                   end) es))
           pred (UseIndexDB.running s);
       UseIndexDB.started := UseIndexDB.started s |}.
Proof.
  unfold UseIndexDB.run. simpl.
  generalize (UseIndexDB.running s) as n. generalize (UseIndexDB.started s) as m.
  induction es as [| e es IH]; intros m n; [done |].
  destruct e; simpl; rewrite ?IH; try done.
  f_equal. clear. induction (length _) as [| k IHk]; simpl; [done |].
  by rewrite <- IHk.
Qed.

(** C10, amended.  A timer callback that runs while the hook is active
    starts a run of [syncToServer] whatever the number of runs still in
    flight: that number goes up by one, nothing is dropped and nothing is
    queued.  Once the cleanup of the effect has run, no callback starts a
    run any more. *)
Theorem autosync_starts_a_pass_on_every_trigger s e es :
  UseIndexDB.triggered s e = true →
  UseIndexDB.running (UseIndexDB.step s e) = S (UseIndexDB.running s) ∧
  UseIndexDB.started (UseIndexDB.step s e) = S (UseIndexDB.started s) ∧
  UseIndexDB.started (UseIndexDB.run (UseIndexDB.step s UseIndexDB.Cleanup) es)
  = UseIndexDB.started s.
Proof.
  intros Ht. rewrite cleanup_is_final. simpl.
  destruct e; simpl in Ht; try discriminate;
    apply andb_prop in Ht as [H1 H2]; simpl; unfold UseIndexDB.callback;
    rewrite H1; simpl; rewrite H2; done.
Qed.

(* ===================================================================== *)
(** ** The properties on sample data                                     *)
(* ===================================================================== *)

(** Three unsynced records, as in the test the specification describes:
    on a browser that checks keys the pass throws, on one that does not
    it returns 0; no request goes out and the three records stay
    unsynced. *)
Lemma sync_pass_pushes_nothing_witness :
  (∃ w',
     UseIndexDB.syncToServer Sample.env
       (Sample.world [Sample.r1; Sample.r2; Sample.r3])
     = (Throw InvalidKey, w') ∧
     posted w' = [] ∧
     store w' !! "gen_1" = Some Sample.r1 ∧
     store w' !! "gen_2" = Some Sample.r2 ∧
     store w' !! "gen_3" = Some Sample.r3) ∧
  (∃ w',
     UseIndexDB.syncToServer Sample.env
       (Sample.lenient [Sample.r1; Sample.r2; Sample.r3])
     = (Ok 0%nat, w') ∧
     posted w' = [] ∧
     store w' !! "gen_1" = Some Sample.r1 ∧
     synced Sample.r1 = Some false).
Proof.
  split.
  - destruct (sync_pass_pushes_nothing Sample.env
                (Sample.world [Sample.r1; Sample.r2; Sample.r3]))
      as (w' & _ & H1 & H2 & H3).
    + right. reflexivity.
    + exists w'. split; [exact H1 |]. split; [exact H2 |].
      rewrite H3. vm_compute. repeat split.
  - destruct (sync_pass_pushes_nothing Sample.env
                (Sample.lenient [Sample.r1; Sample.r2; Sample.r3]))
      as (w' & _ & H1 & H2 & H3).
    + right. reflexivity.
    + exists w'. split; [exact H1 |]. split; [exact H2 |].
      rewrite H3. vm_compute. repeat split.
Defined.



(** [updateGeneration] on a synced record with [{ synced: false }], and
    with [{ synced: undefined }], which leaves the record without the
    flag; and [updateGeneration] of an unsynced record with the id of the
    synced one in its fields, which puts the unsynced record in its
    place. *)
Lemma update_can_reset_synced :
  synced <$> store (Sample.world [Sample.done1]) !! "gen_1"
  = Some (Some true) ∧
  synced <$> store (perform Sample.env (Update "gen_1" Sample.unsync)
                      (Sample.world [Sample.done1])) !! "gen_1"
  = Some (Some false) ∧
  synced <$> store (perform Sample.env (Update "gen_1" Sample.no_flag)
                      (Sample.world [Sample.done1])) !! "gen_1"
  = Some None ∧
  synced <$> store (perform Sample.env (Update "gen_3" Sample.rename)
                      (Sample.world [Sample.done1; Sample.r3])) !! "gen_1"
  = Some (Some false).
Proof. vm_compute. done. Qed.

(** [toggleFavorite] on a synced record. *)
Lemma synced_is_kept_witness :
  ∃ g', store (perform Sample.env (ToggleFavorite "gen_1")
                 (Sample.world [Sample.done1])) !! "gen_1" = Some g' ∧
        synced g' = Some true.
Proof.
  apply (synced_is_kept Sample.env (ToggleFavorite "gen_1")
           (Sample.world [Sample.done1]) "gen_1" Sample.done1).
  - apply (bool_decide_unpack _). vm_compute. exact I.
  - vm_compute. reflexivity.
  - reflexivity.
  - exact I.
Defined.

(** [updateGeneration] with [{ syncAttempts: 0 }] lowers the counter from
    2 to 0. *)
Lemma attempts_can_decrease :
  syncAttempts <$> store (Sample.world [Sample.done1]) !! "gen_1"
  = Some (Some 2) ∧
  syncAttempts <$> store (perform Sample.env (Update "gen_1" Sample.reset_attempts)
                            (Sample.world [Sample.done1])) !! "gen_1"
  = Some (Some 0).
Proof. vm_compute. done. Qed.

(** [markSyncFailed] on a record with two attempts. *)
Lemma attempts_never_decrease_witness :
  (∃ g', store (perform Sample.env (MarkSyncFailed "gen_1")
                  (Sample.world [Sample.done1])) !! "gen_1" = Some g' ∧
         attempts Sample.done1 ≤ attempts g') ∧
  (∃ g', store (perform Sample.env (MarkSyncFailed "gen_1")
                  (Sample.world [Sample.done1])) !! "gen_1" = Some g' ∧
         syncAttempts g' = Some 3).
Proof.
  destruct (attempts_never_decrease Sample.env (MarkSyncFailed "gen_1")
              (Sample.world [Sample.done1]) "gen_1" Sample.done1) as [H1 H2].
  - apply (bool_decide_unpack _). vm_compute. exact I.
  - vm_compute. reflexivity.
  - exact I.
  - split; [exact H1 |].
    destruct H2 as (g' & Hg' & _ & Hone); [reflexivity | right; reflexivity |].
    exists g'. split; [exact Hg' |]. apply Hone. vm_compute.
    split; congruence.
Defined.

(** [markAsSynced] on a record that is synced already: [updatedAt]
    changes too. *)
Lemma markAsSynced_again_changes_updatedAt :
  synced <$> store (Sample.world [Sample.done1]) !! "gen_1"
  = Some (Some true) ∧
  updatedAt <$> store (Sample.world [Sample.done1]) !! "gen_1"
  = Some (Some (DateObj 1000)) ∧
  updatedAt <$> store (perform Sample.env (MarkSynced "gen_1")
                         (Sample.world [Sample.done1])) !! "gen_1"
  = Some (Some (DateObj 1700000000001)).
Proof. vm_compute. done. Qed.

Lemma markAsSynced_twice_witness :
  ∃ w1 w2 g1 g2,
    markAsSynced Sample.env "gen_1" (Sample.world [Sample.r1]) = (Ok tt, w1) ∧
    markAsSynced Sample.env "gen_1" w1 = (Ok tt, w2) ∧
    store w1 !! "gen_1" = Some g1 ∧ store w2 !! "gen_1" = Some g2 ∧
    synced g2 = Some true ∧ same_but_timestamps g1 g2.
Proof.
  destruct (markAsSynced_twice Sample.env "gen_1" (Sample.world [Sample.r1]) Sample.r1)
    as (w1 & w2 & g1 & g2 & H1 & H2 & H3 & _ & H4 & H5 & H6 & _).
  - right. reflexivity.
  - vm_compute. reflexivity.
  - reflexivity.
  - exists w1, w2, g1, g2. repeat split; try assumption; apply H6.
Defined.

(** Records as an import leaves them hold their dates as strings: the
    query for the newest first returns them oldest first, in key order.
    And a limit of -1 on two records: [slice(0, -1)] returns one
    record. *)
Lemma imported_records_are_not_sorted :
  ((getGenerations "user_1" None
      (Sample.world (revive <$> [Sample.r1; Sample.r2; Sample.r3]))).1
   = Ok (revive <$> [Sample.r1; Sample.r2; Sample.r3]) ∧
   sortOrder_of None = desc ∧
   instant (createdAt (revive Sample.r1)) < instant (createdAt (revive Sample.r3))) ∧
  ((getGenerations "user_1" (Some (Sample.limit (-1)))
      (Sample.world [Sample.r1; Sample.r2])).1
   = Ok [Sample.r2] ∧
   ¬ (Z.of_nat (length [Sample.r2]) ≤ limit_of (Some (Sample.limit (-1))))).
Proof.
  split; split; try (vm_compute; reflexivity).
  - split; vm_compute; reflexivity.
  - vm_compute. congruence.
Qed.

(** Three records, limit 2: the two newest, newest first. *)
Lemma getGenerations_filters_sorts_pages_witness :
  ∃ results,
    getGenerations "user_1" (Some (Sample.limit 2))
      (Sample.world [Sample.r1; Sample.r2; Sample.r3])
    = (Ok results, set_db true (Sample.world [Sample.r1; Sample.r2; Sample.r3])) ∧
    results = [Sample.r3; Sample.r2] ∧
    Z.of_nat (length results) ≤ 2.
Proof.
  destruct (getGenerations_filters_sorts_pages "user_1" (Some (Sample.limit 2))
              (Sample.world [Sample.r1; Sample.r2; Sample.r3]))
    as (results & H1 & H2 & _ & H3 & _).
  - right. reflexivity.
  - vm_compute. congruence.
  - exists results. split; [exact H1 |]. split; [| exact H3].
    rewrite H2. vm_compute. reflexivity.
Defined.

(** With no usage data, a limit of 0 is not reported reached. *)
Lemma missing_usage_is_not_denied :
  UseSubscription.hasReachedLimit None (Some Sample.limits) "imageGeneration"
  = false ∧
  UseSubscription.hasReachedLimit (Some ∅) (Some Sample.limits) "imageGeneration"
  = true.
Proof. vm_compute. done. Qed.



(** The timeout and the interval fire before the first run settles: two
    runs are in flight. *)
Lemma two_passes_in_flight :
  UseIndexDB.running
    (UseIndexDB.run UseIndexDB.activate
       [UseIndexDB.TimeoutFires; UseIndexDB.IntervalFires])
  = 2%nat.
Proof. reflexivity. Qed.

Lemma autosync_starts_a_pass_on_every_trigger_witness :
  UseIndexDB.running (UseIndexDB.step Sample.busy UseIndexDB.IntervalFires) = 2%nat ∧
  UseIndexDB.started (UseIndexDB.step Sample.busy UseIndexDB.IntervalFires) = 2%nat ∧
  UseIndexDB.started
    (UseIndexDB.run (UseIndexDB.step Sample.busy UseIndexDB.Cleanup)
       [UseIndexDB.IntervalFires; UseIndexDB.TimeoutFires])
  = 1%nat.
Proof.
  apply (autosync_starts_a_pass_on_every_trigger Sample.busy UseIndexDB.IntervalFires
           [UseIndexDB.IntervalFires; UseIndexDB.TimeoutFires]).
  reflexivity.
Defined.

(* ===================================================================== *)
(** ** Further properties of the store, the hook and the quota checks    *)
(* ===================================================================== *)

(** *** Records that are not there *)

(** X1.  On an id that is not in the store, [updateGeneration] and
    [markAsSynced] throw the error that names the id, [toggleFavorite]
    and [addTags] throw their own error, which does not, whereas
    [markSyncFailed] returns normally; none of them changes the store. *)
Theorem missing_record env i u ts w :
  usable w →
  store w !! i = None →
  updateGeneration env i u w = (Throw (NotFound i), set_db true w) ∧
  markAsSynced env i w = (Throw (NotFound i), tick (set_db true w)) ∧
  toggleFavorite env i w = (Throw GenerationNotFound, set_db true w) ∧
  addTags env i ts w = (Throw GenerationNotFound, set_db true w) ∧
  markSyncFailed env i w = (Ok tt, set_db true w).
Proof.
  intros Hu Hi. split_and!.
  - by apply updateGeneration_missing.
  - unfold markAsSynced. rewrite with_db, try_rethrow by done.
    erewrite bind_ok by reflexivity.
    rewrite updateGeneration_missing; [done | left; reflexivity | done].
  - unfold toggleFavorite. rewrite try_rethrow.
    erewrite bind_ok by (by apply getGenerationById_usable).
    by rewrite Hi.
  - unfold addTags. rewrite try_rethrow.
    erewrite bind_ok by (by apply getGenerationById_usable).
    by rewrite Hi.
  - unfold markSyncFailed. rewrite with_db, try_rethrow by done.
    erewrite bind_ok; last first.
    { apply getGenerationById_usable. left; reflexivity. }
    simpl. by rewrite Hi.
Qed.

(** *** Favorites *)

Lemma toggleFavorite_found env i w g :
  usable w →
  store w !! i = Some g →
  id g = i →
  toggleFavorite env i w
  = (Ok (negb (default false (favorite g))),
     set_store
       (<[i := spread g (favorite_fields (negb (default false (favorite g))))
                 (DateObj (clock env (ticks w)))]> (store w))
       (tick (set_db true w))).
Proof.
  intros Hu Hg Hi. unfold toggleFavorite. rewrite try_rethrow.
  erewrite bind_ok by (by apply getGenerationById_usable).
  rewrite Hg. erewrite bind_ok; last first.
  { apply (updateGeneration_found env i _ _ g); [left; reflexivity | done | done]. }
  cbv zeta. simpl. by rewrite Hi.
Qed.

(** X2.  [toggleFavorite] on a stored record returns the negation of its
    [favorite] flag, an absent flag counting as false, and stores that
    value, changing nothing else but [updatedAt] and no other record; a
    second call returns the original flag and stores it again. *)
Theorem toggleFavorite_flips env i w g :
  usable w →
  store w !! i = Some g →
  id g = i →
  ∃ w1 w2 g1 g2,
    toggleFavorite env i w = (Ok (negb (default false (favorite g))), w1) ∧
    store w1 !! i = Some g1 ∧
    favorite g1 = Some (negb (default false (favorite g))) ∧
    same_but_favorite g g1 ∧
    (∀ j, j ≠ i → store w1 !! j = store w !! j) ∧
    toggleFavorite env i w1 = (Ok (default false (favorite g)), w2) ∧
    store w2 !! i = Some g2 ∧
    favorite g2 = Some (default false (favorite g)) ∧
    same_but_favorite g g2.
Proof.
  intros Hu Hg Hi.
  pose proof (toggleFavorite_found env i w g Hu Hg Hi) as H1.
  set (g1 := spread g _ _) in H1. set (w1 := set_store _ _) in H1.
  assert (store w1 !! i = Some g1) as Hg1 by apply lookup_insert_eq.
  assert (id g1 = i) as Hi1 by exact Hi.
  assert (usable w1) as Hu1 by (left; reflexivity).
  pose proof (toggleFavorite_found env i w1 g1 Hu1 Hg1 Hi1) as H2.
  assert (negb (default false (favorite g1)) = default false (favorite g)) as Hb.
  { simpl. by rewrite negb_involutive. }
  rewrite Hb in H2.
  set (g2 := spread g1 _ _) in H2. set (w2 := set_store _ _) in H2.
  exists w1, w2, g1, g2. split_and!; try done.
  - intros j Hj. simpl. by rewrite lookup_insert_ne.
  - apply lookup_insert_eq.
Qed.

(** *** Tags *)

Lemma elem_of_dedupe l x : x ∈ JS.dedupe l ↔ x ∈ l.
Proof.
  unfold JS.dedupe. by rewrite elem_of_reverse, elem_of_remove_dups, elem_of_reverse.
Qed.

Lemma NoDup_dedupe l : NoDup (JS.dedupe l).
Proof. unfold JS.dedupe. rewrite reverse_Permutation. apply NoDup_remove_dups. Qed.

Lemma dedupe_snoc l x :
  JS.dedupe (l ++ [x]) = if decide (x ∈ l) then JS.dedupe l else JS.dedupe l ++ [x].
Proof.
  unfold JS.dedupe. rewrite reverse_snoc. simpl.
  destruct (decide_rel elem_of x (reverse l)) as [Hin | Hin];
    rewrite elem_of_reverse in Hin.
  - by rewrite decide_True.
  - rewrite decide_False by done. by rewrite reverse_cons.
Qed.

Lemma dedupe_NoDup l : NoDup l → JS.dedupe l = l.
Proof.
  induction l as [| x l IH] using rev_ind; intros Hnd; [done |].
  apply NoDup_app in Hnd as (Hl & Hx & _). rewrite dedupe_snoc.
  rewrite decide_False; [by rewrite IH |].
  intros Hin. apply (Hx x Hin). by left.
Qed.

(** Tags that are there already are left where they are; new ones are
    put behind them. *)
Lemma dedupe_app_NoDup l k :
  NoDup l → ∃ k', JS.dedupe (l ++ k) = l ++ k' ∧ (∀ x, x ∈ k' → x ∈ k ∧ x ∉ l).
Proof.
  intros Hl. induction k as [| x k IH] using rev_ind.
  - exists []. rewrite !app_nil_r. split; [by apply dedupe_NoDup |].
    intros x Hx. by apply elem_of_nil in Hx.
  - destruct IH as (k' & Hk' & Hin). rewrite app_assoc, dedupe_snoc, Hk'.
    destruct (decide (x ∈ l ++ k)) as [Hx | Hx].
    + exists k'. split; [done |]. intros y Hy. destruct (Hin y Hy).
      split; [| done]. apply elem_of_app. by left.
    + exists (k' ++ [x]). rewrite <- app_assoc. split; [done |].
      intros y [Hy | ->%list_elem_of_singleton]%elem_of_app.
      * destruct (Hin y Hy). split; [| done]. apply elem_of_app. by left.
      * split; [apply elem_of_app; right; by left |].
        intros Hxl. apply Hx, elem_of_app. by left.
Qed.

Lemma dedupe_absorb l k :
  NoDup l → (∀ x, x ∈ k → x ∈ l) → JS.dedupe (l ++ k) = l.
Proof.
  intros Hl Hk. destruct (dedupe_app_NoDup l k Hl) as (k' & -> & Hin).
  destruct k' as [| y k']; [by rewrite app_nil_r |].
  destruct (Hin y) as [Hy1 Hy2]; [by left |]. exfalso. by apply Hy2, Hk.
Qed.

Lemma addTags_found env i new w g :
  usable w →
  store w !! i = Some g →
  id g = i →
  addTags env i new w
  = (Ok tt,
     set_store
       (<[i := spread g (tags_fields (JS.dedupe (default [] (tags g) ++ new)))
                 (DateObj (clock env (ticks w)))]> (store w))
       (tick (set_db true w))).
Proof.
  intros Hu Hg Hi. unfold addTags. rewrite try_rethrow.
  erewrite bind_ok by (by apply getGenerationById_usable).
  rewrite Hg.
  rewrite (updateGeneration_found env i _ _ g); [| left; reflexivity | done | done].
  cbv zeta. simpl. by rewrite Hi.
Qed.

(** X3.  [addTags] on a stored record leaves it with a tag list without
    repetition that holds exactly the tags it had and the tags given;
    when the tags it had were without repetition they keep their places
    at the front.  Nothing else changes but [updatedAt], and no other
    record.  Giving the same tags once more leaves the tag list as it
    is. *)
Theorem addTags_merges env i new w g :
  usable w →
  store w !! i = Some g →
  id g = i →
  ∃ w1 w2 g1 g2 ts,
    addTags env i new w = (Ok tt, w1) ∧
    store w1 !! i = Some g1 ∧
    tags g1 = Some ts ∧
    NoDup ts ∧
    (∀ t, t ∈ ts ↔ t ∈ default [] (tags g) ∨ t ∈ new) ∧
    (NoDup (default [] (tags g)) → default [] (tags g) `prefix_of` ts) ∧
    same_but_tags g g1 ∧
    (∀ j, j ≠ i → store w1 !! j = store w !! j) ∧
    addTags env i new w1 = (Ok tt, w2) ∧
    store w2 !! i = Some g2 ∧
    tags g2 = Some ts.
Proof.
  intros Hu Hg Hi.
  pose proof (addTags_found env i new w g Hu Hg Hi) as H1.
  set (ts := JS.dedupe _) in H1.
  set (g1 := spread g _ _) in H1. set (w1 := set_store _ _) in H1.
  assert (store w1 !! i = Some g1) as Hg1 by apply lookup_insert_eq.
  assert (id g1 = i) as Hi1 by exact Hi.
  assert (usable w1) as Hu1 by (left; reflexivity).
  pose proof (addTags_found env i new w1 g1 Hu1 Hg1 Hi1) as H2.
  assert (∀ t, t ∈ ts ↔ t ∈ default [] (tags g) ∨ t ∈ new) as Hts.
  { intros t. unfold ts. by rewrite elem_of_dedupe, elem_of_app. }
  assert (JS.dedupe (default [] (tags g1) ++ new) = ts) as Hsame.
  { change (tags g1) with (Some ts). simpl. apply dedupe_absorb.
    - apply NoDup_dedupe.
    - intros x Hx. apply Hts. by right. }
  rewrite Hsame in H2.
  set (g2 := spread g1 _ _) in H2. set (w2 := set_store _ _) in H2.
  exists w1, w2, g1, g2, ts. split_and!; try done.
  - apply NoDup_dedupe.
  - intros Hnd. destruct (dedupe_app_NoDup _ new Hnd) as (k' & Hk' & _).
    exists k'. exact Hk'.
  - intros j Hj. simpl. by rewrite lookup_insert_ne.
  - apply lookup_insert_eq.
Qed.

(** *** Deleting *)

Lemma delete_all_lookup ids : ∀ (s : gmap string IndexedDBGeneration) k,
  delete_all s ids !! k = if decide (k ∈ ids) then None else s !! k.
Proof.
  unfold delete_all. induction ids as [| i ids IH]; intros s k; cbn [foldl].
  - destruct (decide (k ∈ [])) as [H%elem_of_nil | _]; done.
  - rewrite IH. destruct (decide (k ∈ ids)) as [Hin | Hin].
    + rewrite decide_True; [done |]. by right.
    + destruct (decide (k = i)) as [-> | Hne].
      * rewrite decide_True by (by left). apply lookup_delete_eq.
      * rewrite decide_False.
        -- by rewrite lookup_delete_ne.
        -- by intros [? | ?]%elem_of_cons.
Qed.

Lemma delete_all_size ids : ∀ (s : gmap string IndexedDBGeneration),
  NoDup ids →
  (∀ i, i ∈ ids → is_Some (s !! i)) →
  size s = (size (delete_all s ids) + length ids)%nat.
Proof.
  unfold delete_all. induction ids as [| i ids IH]; intros s Hnd Hin; simpl; [lia |].
  apply NoDup_cons in Hnd as [Hi Hnd].
  destruct (Hin i) as [x Hx]; [by left |].
  assert (size (delete i s)
          = (size (foldl (λ s i, delete i s) (delete i s) ids) + length ids)%nat)
    as Hrec.
  { apply IH; [done |]. intros j Hj.
    rewrite lookup_delete_ne; [apply Hin; by right |].
    intros ->. done. }
  rewrite map_size_delete, Hx in Hrec.
  assert (size s ≠ 0%nat); [| simpl in *; lia].
  intros H0%map_size_empty_inv. by rewrite H0, lookup_empty in Hx.
Qed.

Lemma delete_each_run ids : ∀ w,
  delete_each ids w = (Ok tt, set_store (delete_all (store w) ids) w).
Proof.
  unfold delete_all. induction ids as [| i ids IH]; intros w; simpl.
  - by destruct w.
  - erewrite bind_ok by reflexivity. by rewrite IH.
Qed.

Lemma cursor_loop_run entries : ∀ n w,
  cursor_loop entries n w
  = (Ok (n + length entries)%nat,
     set_store (delete_all (store w) (id <$> entries)) w).
Proof.
  unfold delete_all. induction entries as [| g entries IH]; intros n w; simpl.
  - rewrite Nat.add_0_r. by destruct w.
  - erewrite bind_ok by reflexivity. rewrite IH. simpl.
    by rewrite Nat.add_succ_r.
Qed.

Lemma deleteGenerations_usable ids w :
  usable w →
  deleteGenerations ids w
  = (Ok tt, set_store (delete_all (store w) ids) (set_db true w)).
Proof.
  intros Hu. unfold deleteGenerations. rewrite with_db, try_rethrow by done.
  by rewrite delete_each_run.
Qed.

Lemma deleteGeneration_usable i w :
  usable w →
  deleteGeneration i w
  = (Ok tt, set_store (delete i (store w)) (set_db true w)).
Proof.
  intros Hu. unfold deleteGeneration. by rewrite with_db, try_rethrow.
Qed.

(** X4.  [deleteGenerations] removes exactly the listed ids, whether they
    are stored or not and however often they are listed, leaves every
    other record as it is and sends nothing to the remote end; in a store
    where every record sits under its id, none of the deleted records is
    among those the next sync pass would fetch.  [deleteGeneration] does
    the same for one id, an id that is not stored being no error, and
    [getGenerationById] then answers [null]. *)
Theorem deleting_removes_exactly ids i w :
  usable w →
  ∃ w' w1,
    deleteGenerations ids w = (Ok tt, w') ∧
    (∀ k, store w' !! k = if decide (k ∈ ids) then None else store w !! k) ∧
    posted w' = posted w ∧
    (keyed (store w) →
     ∀ g, g ∈ index_getAll (by_synced false) (store w') → id g ∉ ids) ∧
    deleteGeneration i w = (Ok tt, w1) ∧
    (∀ k, store w1 !! k = if decide (k = i) then None else store w !! k) ∧
    posted w1 = posted w ∧
    getGenerationById i w1 = (Ok None, w1).
Proof.
  intros Hu. eexists _, _. split; [by apply deleteGenerations_usable |].
  split; [intros k; apply delete_all_lookup |]. split; [done |].
  split.
  { intros Hk g (Hs & k & Hg)%elem_of_index_getAll Hin. simpl in Hg.
    rewrite delete_all_lookup in Hg.
    destruct (decide (k ∈ ids)) as [? | Hk']; [done |].
    apply Hk in Hg. by subst k. }
  split; [by apply deleteGeneration_usable |].
  split.
  { intros k. simpl. rewrite lookup_delete. by repeat case_decide. }
  split; [done |].
  rewrite getGenerationById_usable by (left; reflexivity).
  simpl. by rewrite lookup_delete_eq.
Qed.

(** X5.  [clearAll] empties the store and sends nothing to the remote
    end: afterwards every query of [getGenerations], for any user and
    options, returns the empty list, [getGenerationById] finds no record
    under any id, and [exportData] gives the empty document. *)
Theorem clearAll_empties u options i w :
  usable w →
  ∃ w',
    clearAll w = (Ok tt, w') ∧
    store w' = ∅ ∧
    posted w' = posted w ∧
    getGenerations u options w' = (Ok [], w') ∧
    getGenerationById i w' = (Ok None, w') ∧
    exportData u w' = (Ok [], w').
Proof.
  intros Hu. eexists. split.
  { unfold clearAll. by rewrite with_db, try_rethrow. }
  set (w' := set_store ∅ (set_db true w)).
  assert (usable w') as Hu' by (left; reflexivity).
  assert (in_key_order (store w') = []) as Hempty.
  { unfold in_key_order. simpl. by rewrite map_to_list_empty. }
  assert (∀ o, getGenerations u o w' = (Ok [], w')) as Hq.
  { intros o. destruct (getGenerations_usable u o w' Hu') as (results & Hrun & ->).
    rewrite Hrun. unfold filtered_sorted. rewrite Hempty.
    change (JS.sort _ _ (List.filter _ [])) with (@nil IndexedDBGeneration).
    unfold JS.slice. by rewrite drop_nil, take_nil. }
  split; [done |]. split; [done |]. split; [apply Hq |]. split.
  - rewrite getGenerationById_usable by done. simpl.
    by rewrite lookup_empty.
  - unfold exportData. rewrite try_rethrow. erewrite bind_ok by apply Hq. done.
Qed.

(** *** Clearing old records *)

Lemma elem_of_cursor_entries cutoff s g :
  g ∈ cursor_entries cutoff s ↔
  in_upper_bound cutoff g = true ∧ ∃ k, s !! k = Some g.
Proof.
  unfold cursor_entries.
  by rewrite JS_stable_sort_perm, elem_of_filter, elem_of_in_key_order.
Qed.

Lemma cursor_entries_ids cutoff s :
  keyed s → NoDup (id <$> cursor_entries cutoff s).
Proof.
  intros Hk. unfold cursor_entries. rewrite JS_stable_sort_perm.
  eapply sublist_NoDup; [apply (in_key_order_ids s Hk) |].
  apply fmap_sublist, filter_sublist.
Qed.

(** X6.  [clearOldGenerations(days)], when the cutoff
    [Date.now() - days * 86400000] (30 days by default) is a time a
    [Date] can hold, deletes the records whose [createdAt] is a [Date]
    object not after the cutoff, the cutoff itself included, of every
    user alike; it keeps, unchanged, the records created after the
    cutoff and those whose [createdAt] is a string; it returns the number
    of records deleted and sends nothing to the remote end. *)
Theorem clearOldGenerations_removes_old env days w :
  usable w →
  keyed (store w) →
  valid_time (cutoff_of env days w) = true →
  ∃ n w',
    clearOldGenerations env days w = (Cleaned n, w') ∧
    (∀ k g, store w !! k = Some g →
       store w' !! k
       = match createdAt g with
         | DateObj ms => if ms <=? cutoff_of env days w then None else Some g
         | IsoString _ => Some g
         end) ∧
    (∀ k, store w !! k = None → store w' !! k = None) ∧
    size (store w) = (size (store w') + n)%nat ∧
    posted w' = posted w.
Proof.
  intros Hu Hk Hv. unfold clearOldGenerations.
  rewrite with_db by done. unfold Date_now at 1. cbv beta iota.
  change (clock env (ticks (set_db true w)) - default 30 days * day_ms)
    with (cutoff_of env days w).
  rewrite Hv, cursor_loop_run.
  set (cutoff := cutoff_of env days w).
  set (entries := cursor_entries cutoff (store (tick (set_db true w)))).
  assert (∀ g, g ∈ entries ↔
               in_upper_bound cutoff g = true ∧ ∃ k, store w !! k = Some g)
    as Hin by (intros g; apply elem_of_cursor_entries).
  eexists _, _. split; [reflexivity |]. split_and!.
  - intros k g Hg. simpl. rewrite delete_all_lookup.
    fold (in_upper_bound cutoff g) in |- *.
    assert (k ∈ id <$> entries ↔ in_upper_bound cutoff g = true) as Hiff.
    { split.
      - intros (x & -> & Hx)%list_elem_of_fmap. apply Hin in Hx as (Hb & k' & Hx).
        assert (id x = k') by (by apply Hk). subst k'.
        rewrite Hg in Hx. by injection Hx as ->.
      - intros Hb. apply list_elem_of_fmap. exists g. split.
        + symmetry. by apply Hk.
        + apply Hin. eauto. }
    unfold in_upper_bound in Hiff.
    destruct (createdAt g) as [ms | ms].
    + destruct (ms <=? cutoff) eqn:E.
      * rewrite decide_True; [done |]. by apply Hiff.
      * rewrite decide_False; [done |]. intros H%Hiff. done.
    + rewrite decide_False; [done |]. intros H%Hiff. done.
  - intros k Hn. simpl. rewrite delete_all_lookup. by case_decide.
  - simpl. rewrite <- (length_fmap id entries). apply delete_all_size.
    + by apply cursor_entries_ids.
    + intros i (x & -> & Hx)%list_elem_of_fmap.
      apply Hin in Hx as (_ & k' & Hx).
      assert (id x = k') by (by apply Hk). subst k'. eauto.
  - done.
Qed.

(** X7.  When the cutoff is not a time a [Date] can hold,
    [clearOldGenerations] fails with the [DataError] of the key range and
    deletes nothing; when the database cannot be opened it fails with the
    initialization error and deletes nothing. *)
Theorem clearOldGenerations_fails env days w :
  (usable w → valid_time (cutoff_of env days w) = false →
   ∃ w', clearOldGenerations env days w = (DataError, w') ∧
         store w' = store w) ∧
  (¬ usable w →
   clearOldGenerations env days w = (Failed InitializationFailed, w)).
Proof.
  split.
  - intros Hu Hv. unfold clearOldGenerations.
    rewrite with_db by done. unfold Date_now at 1. cbv beta iota.
    change (clock env (ticks (set_db true w)) - default 30 days * day_ms)
      with (cutoff_of env days w).
    rewrite Hv. eexists. split; reflexivity.
  - intros Hu. unfold clearOldGenerations.
    assert ((initialize ≫= λ _, require_db ≫= λ _, Date_now env) w
            = (Throw InitializationFailed, w)) as -> by (by apply without_db).
    done.
Qed.

(** *** Statistics *)

Lemma stats_fold iso_lt (l : list IndexedDBGeneration) :
  let st := foldl (stats_step iso_lt) no_stats l in
  (syncedCount st + unsyncedCount st = length l)%nat ∧
  total (counts st) = length l ∧
  syncedCount st
  = length (List.filter (λ g, bool_decide (synced g = Some true)) l) ∧
  failedSyncCount st = length (List.filter (λ g, 3 <? attempts g) l) ∧
  totalSize st = sum_list_with (λ g, result_size (result g)) l ∧
  (oldestItem st = None ↔ l = []) ∧
  (newestItem st = None ↔ l = []) ∧
  ((∀ g, g ∈ l → ∃ ms, createdAt g = DateObj ms) →
   ∀ o n, oldestItem st = Some o → newestItem st = Some n →
     (∃ g, g ∈ l ∧ createdAt g = o) ∧ (∃ g, g ∈ l ∧ createdAt g = n) ∧
     ∀ g, g ∈ l → instant o ≤ instant (createdAt g) ≤ instant n).
Proof.
  induction l as [| x l IH] using rev_ind; [by repeat split |].
  rewrite foldl_snoc. cbv zeta in *.
  set (st := foldl (stats_step iso_lt) no_stats l) in *.
  destruct IH as (H1 & H2 & H3 & H4 & H5 & H6 & H7 & H8).
  rewrite length_app, sum_list_with_app. simpl.
  assert (∀ f : IndexedDBGeneration → bool,
            length (List.filter f (l ++ [x]))
            = (length (List.filter f l) + if f x then 1 else 0)%nat) as Hf.
  { intros f. rewrite List.filter_app, length_app. simpl. by destruct (f x). }
  rewrite !Hf. split_and!.
  - destruct (synced x) as [[] |]; simpl; lia.
  - unfold total in *. destruct (type x); simpl; lia.
  - destruct (synced x) as [[] |]; simpl; lia.
  - unfold attempts in *. destruct (3 <? default 0 (syncAttempts x)); lia.
  - lia.
  - split; [by destruct (oldestItem st) as [o |]; [destruct (date_lt _ _ _) |] |].
    intros H. by apply app_nil in H as [_ ?].
  - split; [by destruct (newestItem st) as [o |]; [destruct (date_lt _ _ _) |] |].
    intros H. by apply app_nil in H as [_ ?].
  - intros Hd o n Ho Hn.
    assert (∀ g, g ∈ l → ∃ ms, createdAt g = DateObj ms) as Hd'.
    { intros g Hg. apply Hd, elem_of_app. by left. }
    destruct (Hd x) as [mx Hx]; [apply elem_of_app; right; by left |].
    specialize (H8 Hd').
    destruct (oldestItem st) as [o0 |] eqn:Eo, (newestItem st) as [n0 |] eqn:En.
    + destruct (H8 o0 n0 eq_refl eq_refl) as ((go & Hgo & Hgo') & (gn & Hgn & Hgn') & Hb).
      destruct (Hd' go Hgo) as [mo Hmo]. destruct (Hd' gn Hgn) as [mn Hmn].
      rewrite Hmo in Hgo'. rewrite Hmn in Hgn'. subst o0 n0.
      rewrite Hx in Ho, Hn. simpl in Ho, Hn.
      assert (mo ≤ mn) as Hmomn.
      { specialize (Hb go Hgo). rewrite Hmo in Hb. simpl in Hb. lia. }
      destruct (Z.ltb_spec mx mo), (Z.ltb_spec mn mx);
        injection Ho as <-; injection Hn as <-; simpl;
        (split_and!;
         [ first [ by (exists x; split; [apply elem_of_app; right; left | done])
                 | by (exists go; split; [apply elem_of_app; by left | done]) ]
         | first [ by (exists x; split; [apply elem_of_app; right; left | done])
                 | by (exists gn; split; [apply elem_of_app; by left | done]) ]
         | intros g [Hg | ->%list_elem_of_singleton]%elem_of_app;
           [ specialize (Hb g Hg); simpl in Hb; lia
           | rewrite Hx; simpl; lia ] ]).
    + pose proof (proj1 H7 eq_refl) as ->. by pose proof (proj2 H6 eq_refl).
    + pose proof (proj1 H6 eq_refl) as ->. by pose proof (proj2 H7 eq_refl).
    + pose proof (proj1 H6 eq_refl) as ->. simpl in *.
      injection Ho as <-. injection Hn as <-.
      split_and!; try (exists x; split; [by left | done]).
      intros g ->%list_elem_of_singleton. lia.
Qed.

(** A query by type and limit with a non-negative limit: at most [n]
    records, all of them stored records of the user (and of the type),
    and all of those if there are no more than [n]. *)
Lemma query_by_type u t n w :
  usable w → 0 ≤ n →
  ∃ l,
    getGenerations u (Some (type_limit t n)) w = (Ok l, set_db true w) ∧
    Z.of_nat (length l) ≤ n ∧
    sublist l (filtered_sorted u (Some (type_limit t n)) w) ∧
    (∀ g, g ∈ l →
       userId g = u ∧ (∀ t', t = Some t' → type g = t') ∧
       ∃ k, store w !! k = Some g) ∧
    (Z.of_nat (length (List.filter (selected u (type_limit t n))
                         (in_key_order (store w)))) ≤ n →
     l ≡ₚ List.filter (selected u (type_limit t n)) (in_key_order (store w))).
Proof.
  intros Hu Hn. destruct (getGenerations_usable u (Some (type_limit t n)) w Hu)
    as (l & Hrun & Hl).
  exists l. split; [done |].
  change (offset_of (Some (type_limit t n))) with 0 in Hl.
  change (limit_of (Some (type_limit t n))) with n in Hl.
  split; [subst l; by apply (JS_slice_length _ 0 n) |].
  split; [subst l; apply JS_slice_sublist |].
  split.
  - intros g Hg. subst l.
    assert (g ∈ filtered_sorted u (Some (type_limit t n)) w) as Hin.
    { eapply elem_of_sublist; [done | apply JS_slice_sublist]. }
    unfold filtered_sorted in Hin. rewrite JS_sort_perm in Hin.
    apply elem_of_filter in Hin as [Hsel Hin].
    apply elem_of_in_key_order in Hin.
    unfold selected in Hsel. simpl in Hsel.
    rewrite !andb_true_r in Hsel. apply andb_true_iff in Hsel as [Hu' Ht].
    apply String.eqb_eq in Hu'. split; [done |]. split; [| done].
    intros t' ->. by apply bool_decide_eq_true in Ht.
  - intros Hlen. subst l. rewrite (JS_slice_page _ 0 n) by lia.
    change (Z.to_nat 0) with 0%nat. rewrite drop_0.
    unfold filtered_sorted. rewrite take_ge.
    + apply JS_sort_perm.
    + rewrite JS_sort_perm. simpl. lia.
Qed.

(** X8. [getStorageStats] on a database that can be opened answers with
    the statistics of the records a query of the user with limit 10000
    returns: the synced and unsynced counts add up to their number, and so
    do the counts per type; the synced count is the number of records
    marked synced, the failed count the number of records with more than
    three attempts, the total size the sum of the sizes of the results;
    oldest and newest item are absent exactly if there is no record, and if
    every record holds a [Date] in [createdAt] they are the earliest and the
    latest of those dates. *)
Theorem getStorageStats_summary iso_lt u w :
  usable w →
  ∃ st l,
    getStorageStats iso_lt u w = (Ok st, set_db true w) ∧
    getGenerations u (Some (type_limit None 10000)) w = (Ok l, set_db true w) ∧
    Z.of_nat (length l) ≤ 10000 ∧
    (∀ g, g ∈ l → userId g = u ∧ ∃ k, store w !! k = Some g) ∧
    (syncedCount st + unsyncedCount st = length l)%nat ∧
    total (counts st) = length l ∧
    syncedCount st
    = length (List.filter (λ g, bool_decide (synced g = Some true)) l) ∧
    failedSyncCount st = length (List.filter (λ g, 3 <? attempts g) l) ∧
    totalSize st = sum_list_with (λ g, result_size (result g)) l ∧
    (oldestItem st = None ↔ l = []) ∧
    (newestItem st = None ↔ l = []) ∧
    ((∀ g, g ∈ l → ∃ ms, createdAt g = DateObj ms) →
     ∀ o n, oldestItem st = Some o → newestItem st = Some n →
       (∃ g, g ∈ l ∧ createdAt g = o) ∧ (∃ g, g ∈ l ∧ createdAt g = n) ∧
       ∀ g, g ∈ l → instant o ≤ instant (createdAt g) ≤ instant n).
Proof.
  intros Hu.
  destruct (query_by_type u None 10000 w Hu) as (l & Hrun & Hlen & _ & Hin & _);
    [lia |].
  exists (foldl (stats_step iso_lt) no_stats l), l.
  split.
  { unfold getStorageStats. rewrite try_rethrow.
    fold (type_limit None 10000). by erewrite bind_ok by exact Hrun. }
  split; [done |]. split; [done |].
  split; [intros g Hg; destruct (Hin g Hg) as (? & _ & ?); done |].
  apply stats_fold.
Qed.

(** [includes] is the test for a substring. *)
Lemma prefix_spec (q s : string) :
  String.prefix q s = true ↔ ∃ b, s = q +:+ b.
Proof.
  revert s. induction q as [| c q IH]; intros s; simpl.
  - destruct s; simpl; (split; [intros _; by eexists | done]).
  - destruct s as [| d s]; [split; [done | by intros [b Hb]] |].
    simpl. destruct (Ascii.ascii_dec c d) as [-> | Hcd].
    + rewrite IH. split; intros [b Hb]; exists b; [by rewrite Hb | by injection Hb].
    + split; [done | intros [b Hb]; injection Hb as -> _; done].
Qed.

Lemma includes_spec (s q : string) :
  includes s q = true ↔ ∃ a b, s = a +:+ q +:+ b.
Proof.
  induction s as [| c s IH].
  - cbn [includes]. destruct (String.prefix q EmptyString) eqn:Hp.
    + apply prefix_spec in Hp as [b Hb]. split; [| done].
      intros _. by exists EmptyString, b.
    + split; [done |]. intros (a & b & Hab).
      destruct a as [| ? ?]; [| done]. simpl in Hab.
      assert (String.prefix q EmptyString = true) as Hq
        by (apply prefix_spec; by exists b).
      congruence.
  - cbn [includes]. destruct (String.prefix q (String c s)) eqn:Hp.
    + apply prefix_spec in Hp as [b Hb]. split; [| done].
      intros _. by exists EmptyString, b.
    + rewrite IH. split.
      * intros (a & b & ->). by exists (String c a), b.
      * intros (a & b & Hab). destruct a as [| c' a].
        -- simpl in Hab.
           assert (String.prefix q (String c s) = true) as Hq
             by (apply prefix_spec; by exists b).
           congruence.
        -- injection Hab as _ ->. by exists a, b.
Qed.

Lemma includes_empty (s : string) : includes s EmptyString = true.
Proof. by destruct s. Qed.

Lemma filter_all {A} (f : A → bool) (l : list A) :
  (∀ x, x ∈ l → f x = true) → List.filter f l = l.
Proof.
  induction l as [| x l IH]; [done |]. intros H. simpl.
  rewrite (H x) by left. f_equal. apply IH. intros y Hy. apply H. by right.
Qed.

(** X9. [searchGenerations] on a database that can be opened answers with
    those records of the query of the user (and type) with limit 1000 of
    which the lower-cased prompt, model or one of the tags contains the
    lower-cased query as a substring, in the order of that query; every
    hit is a stored record of the user, and a query whose lower-case form
    is empty selects all records of that query. *)
Theorem searchGenerations_hits toLowerCase u query t w :
  usable w →
  ∃ hits l,
    searchGenerations toLowerCase u query t w = (Ok hits, set_db true w) ∧
    getGenerations u (Some (type_limit t 1000)) w = (Ok l, set_db true w) ∧
    sublist hits l ∧ Z.of_nat (length l) ≤ 1000 ∧
    (∀ g, g ∈ hits ↔
       g ∈ l ∧
       ∃ field, (field = prompt g ∨ model g = Some field ∨
                 ∃ ts, tags g = Some ts ∧ field ∈ ts) ∧
                ∃ a b, toLowerCase field = a +:+ toLowerCase query +:+ b) ∧
    (∀ g, g ∈ hits → userId g = u ∧ ∃ k, store w !! k = Some g) ∧
    (toLowerCase query = EmptyString → hits = l).
Proof.
  intros Hu.
  destruct (query_by_type u t 1000 w Hu) as (l & Hrun & Hlen & _ & Hin & _);
    [lia |].
  exists (List.filter (search_hit toLowerCase (toLowerCase query)) l), l.
  split.
  { unfold searchGenerations. rewrite try_rethrow.
    fold (type_limit t 1000). by erewrite bind_ok by exact Hrun. }
  split; [done |]. split; [apply filter_sublist |]. split; [done |].
  split; [| split].
  - intros g. rewrite elem_of_filter. unfold search_hit.
    rewrite !orb_true_iff. split.
    + intros [[[Hp | Hm] | Ht] Hg]; (split; [done |]).
      * exists (prompt g). split; [by left |]. by apply includes_spec.
      * destruct (model g) as [m |] eqn:Em; [| done].
        exists m. split; [right; by left |]. by apply includes_spec.
      * destruct (tags g) as [ts |] eqn:Et; [| done].
        apply existsb_exists in Ht as (tag & Htag & Hinc).
        exists tag. split; [right; right; exists ts; split; [done |];
                            by apply list_elem_of_In |].
        by apply includes_spec.
    + intros [Hg (field & [-> | [Hm | (ts & Ht & Hf)]] & Hsub)];
        (split; [| done]); apply includes_spec in Hsub.
      * left. by left.
      * left. right. by rewrite Hm.
      * right. rewrite Ht. apply existsb_exists. exists field.
        split; [by apply list_elem_of_In | done].
  - intros g [_ Hg]%elem_of_filter. destruct (Hin g Hg) as (? & _ & ?). done.
  - intros Hq. apply filter_all. intros g _. unfold search_hit.
    by rewrite Hq, includes_empty.
Qed.

(** *** A database that cannot be opened *)




(** *** What a sync pass leaves behind *)

Lemma markAsSynced_frame env i w :
  posted (markAsSynced env i w).2 = posted w ∧
  (usable w → usable (markAsSynced env i w).2).
Proof.
  destruct (usable_dec w) as [Hu | Hu].
  - destruct (store w !! i) as [e |] eqn:He.
    + rewrite (markAsSynced_found env i w e) by done. simpl.
      split; [done |]. intros _. by left.
    + unfold markAsSynced. rewrite with_db, try_rethrow by done.
      erewrite bind_ok by reflexivity.
      rewrite updateGeneration_missing; [| by left | done].
      simpl. split; [done |]. intros _. by left.
  - unfold markAsSynced. rewrite without_db by done. done.
Qed.

Lemma resultData_world env item w :
  (UseIndexDB.resultData env item w).2 = w.
Proof.
  unfold UseIndexDB.resultData, UseIndexDB.blobToBase64.
  destruct (result item); try done. by destruct (readAsDataURL env b).
Qed.

Lemma resultData_converted env item w :
  UseIndexDB.resultData env item w
  = match converted env item with
    | Some b => (Ok (result b), w)
    | None => (Throw BlobConversionFailed, w)
    end
  ∧ ∀ b, converted env item = Some b →
         b = UseIndexDB.with_result item (result b) ∧
         (∀ bytes, result b ≠ BlobData bytes) ∧
         (∀ s, result item = Text s → b = item).
Proof.
  unfold UseIndexDB.resultData, UseIndexDB.blobToBase64, converted.
  destruct (result item) as [s | bl |] eqn:Er; simpl.
  - split; [done |]. intros b [= <-]. split; [done |]. split; [done |].
    intros s' _. unfold UseIndexDB.with_result. rewrite <- Er. by destruct item.
  - destruct (readAsDataURL env bl); simpl; (split; [done |]); [| done].
    intros b [= <-]. done.
  - split; [done |]. intros b [= <-]. done.
Qed.

Lemma request_body_Some env item b :
  request_body env item = Some b ↔
  converted env item = Some b ∧ is_Some (toJSON b).
Proof.
  unfold request_body. destruct (converted env item) as [c |]; simpl.
  - destruct (toJSON c) as [j |] eqn:E; split.
    + intros [= <-]. rewrite E. eauto.
    + by intros [[= <-] _].
    + done.
    + intros [[= <-] [j Hj]]. congruence.
  - split; [done | by intros [? _]].
Qed.

(** One turn of the loop: no request when the blob cannot be read or
    the body cannot be serialised, one request otherwise. *)
Lemma sync_item_posts env item w :
  (usable w → usable (UseIndexDB.sync_item env item w).2) ∧
  match request_body env item with
  | None => ∃ e, UseIndexDB.sync_item env item w = (Throw e, w)
  | Some b => posted (UseIndexDB.sync_item env item w).2 = posted w ++ [b]
  end.
Proof.
  unfold UseIndexDB.sync_item. rewrite try_rethrow.
  destruct (resultData_converted env item w) as [Hr Hb].
  unfold request_body.
  destruct (converted env item) as [b |] eqn:Eb; simpl.
  - erewrite bind_ok by exact Hr.
    destruct (Hb b eq_refl) as (Hwith & _). rewrite <- Hwith.
    destruct (toJSON b) as [j |] eqn:Ej.
    + destruct (post env (posted w) b) eqn:Ep.
      * erewrite bind_ok; last first.
        { unfold UseIndexDB.axios_post. rewrite Ej, Ep. reflexivity. }
        destruct (markAsSynced_frame env (id item) (add_posted b w)) as [Hp Hu].
        rewrite Hp. split; [| done]. intros H. by apply Hu.
      * erewrite bind_throw; last first.
        { unfold UseIndexDB.axios_post. rewrite Ej, Ep. reflexivity. }
        done.
    + erewrite bind_throw; last first.
      { unfold UseIndexDB.axios_post. rewrite Ej. reflexivity. }
      split; [done | eauto].
  - erewrite bind_throw by exact Hr. split; [done | eauto].
Qed.

(** The requests of the loop over a list are those for its first
    records, one for each and in the order of the list. *)
Lemma sync_loop_posts env l : ∀ w,
  (usable w → usable (UseIndexDB.sync_loop env l w).2) ∧
  ∃ n, posted (UseIndexDB.sync_loop env l w).2
       = posted w ++ omap (request_body env) (take n l).
Proof.
  induction l as [| item l IH]; intros w; simpl.
  - split; [done |]. exists 0%nat. by rewrite app_nil_r.
  - destruct (sync_item_posts env item w) as [Hu Hp].
    destruct (UseIndexDB.sync_item env item w) as [[[] | err] w1] eqn:E.
    + erewrite bind_ok by exact E. simpl in Hu.
      destruct (IH w1) as [Hu1 [n Hn]]. split; [tauto |].
      destruct (request_body env item) as [b |] eqn:Eb;
        [| by destruct Hp as [e He]].
      exists (S n). simpl in *. rewrite Hn, Hp, Eb. simpl.
      by rewrite <- app_assoc.
    + erewrite bind_throw by exact E. simpl in *. split; [done |].
      destruct (request_body env item) as [b |] eqn:Eb.
      * exists 1%nat. simpl. rewrite Eb. simpl. by destruct l.
      * destruct Hp as [e He]. injection He as _ <-.
        exists 0%nat. by rewrite app_nil_r.
Qed.

(** A request never carries a blob: its body is the record, with the
    text read from the blob in place of a blob. *)
Lemma request_body_text env g b :
  request_body env g = Some b →
  (∀ bytes, result b ≠ BlobData bytes) ∧
  b = UseIndexDB.with_result g (result b) ∧
  (∀ s, result g = Text s → b = g).
Proof.
  intros [Hc _]%request_body_Some.
  destruct (resultData_converted env g (Sample.world [])) as [_ H].
  destruct (H b Hc) as (H1 & H2 & H3). done.
Qed.

(** X12.  [updateGeneration] with an id in its fields that is not the id
    of the record it is aimed at does not rename that record: the record
    stays where it was, unchanged, and the merged record is put under the
    other id, in place of whatever was stored there. *)
Theorem update_with_another_id env i j u w e :
  usable w →
  store w !! i = Some e →
  p_id u = Some (Some j) →
  j ≠ i →
  ∃ w' g,
    updateGeneration env i u w = (Ok tt, w') ∧
    g = spread e u (DateObj (clock env (ticks w))) ∧
    id g = j ∧
    store w' !! i = Some e ∧
    store w' !! j = Some g ∧
    (∀ k, k ≠ j → store w' !! k = store w !! k) ∧
    posted w' = posted w.
Proof.
  intros Hu He Hid Hne.
  rewrite (updateGeneration_found env i u w e) by (done || by rewrite Hid).
  cbv zeta.
  eexists _, _. split; [reflexivity |]. split; [reflexivity |].
  assert (id (spread e u (DateObj (clock env (ticks w)))) = j) as Hj.
  { simpl. by rewrite Hid. }
  rewrite Hj. cbn [store set_store posted tick set_db].
  split; [done |].
  split; [by rewrite lookup_insert_ne |].
  split; [apply lookup_insert_eq |].
  split; [| done]. intros k Hk. by rewrite lookup_insert_ne.
Qed.

(** X13. Whatever the outcome of a pass, the requests it has made are
    those for the first records of the list of unsynced records, one per
    record and in the order of the list; each body is a record of the
    store that was unsynced, with its result as text in place of a blob:
    no request carries a blob.  The same holds of the loop of the pass
    over any list of records it is given. *)
Theorem sync_pass_requests env w :
  (∃ n,
     let sent := take n (index_getAll (by_synced false) (store w)) in
     posted (UseIndexDB.syncToServer env w).2
     = posted w ++ omap (request_body env) sent ∧
     (∀ b, b ∈ omap (request_body env) sent →
        (∀ bytes, result b ≠ BlobData bytes) ∧
        ∃ g k, store w !! k = Some g ∧ synced g = Some false ∧
               b = UseIndexDB.with_result g (result b) ∧
               (∀ s, result g = Text s → b = g))) ∧
  (∀ l, ∃ n,
     posted (UseIndexDB.sync_loop env l w).2
     = posted w ++ omap (request_body env) (take n l) ∧
     (∀ b, b ∈ omap (request_body env) (take n l) →
        (∀ bytes, result b ≠ BlobData bytes) ∧
        ∃ g, g ∈ l ∧ b = UseIndexDB.with_result g (result b) ∧
             (∀ s, result g = Text s → b = g))).
Proof.
  split.
  - exists 0%nat. cbv zeta. rewrite take_0. simpl. rewrite app_nil_r.
    split; [| intros b Hb; by apply elem_of_nil in Hb].
    unfold UseIndexDB.syncToServer. rewrite try_rethrow.
    destruct (usable_dec w) as [Hu | Hu].
    + pose proof (getUnsyncedGenerations_usable w Hu) as Hget.
      destruct (strict_keys w).
      * by erewrite bind_throw by exact Hget.
      * by erewrite bind_ok by exact Hget.
    + erewrite bind_throw; [done |].
      unfold getUnsyncedGenerations. by apply without_db.
  - intros l. destruct (sync_loop_posts env l w) as [_ [n Hn]].
    exists n. split; [exact Hn |].
    intros b (g & Hg & Hb)%list_elem_of_omap.
    destruct (request_body_text env g b Hb) as (H1 & H2 & H3).
    split; [done |]. exists g. split; [| done].
    eapply elem_of_sublist; [exact Hg | apply sublist_take].
Qed.

(** An update that keeps the id rewrites a record in place: the keys of
    the store are the same afterwards. *)
Lemma updateGeneration_keys env i u w :
  keyed (store w) →
  p_id u = None →
  dom (store (updateGeneration env i u w).2) = dom (store w).
Proof.
  intros Hk Hid. destruct (usable_dec w) as [Hu | Hu].
  - destruct (store w !! i) as [e |] eqn:He.
    + rewrite (updateGeneration_found env i u w e) by (done || by rewrite Hid).
      cbv zeta. unfold snd, set_store, store at 1.
      assert (id (spread e u (DateObj (clock env (ticks w)))) = i) as ->.
      { simpl. rewrite Hid. simpl. by apply Hk. }
      apply dom_insert_lookup_L. by rewrite He.
    + by rewrite updateGeneration_missing.
  - by rewrite updateGeneration_unusable.
Qed.

Lemma markAsSynced_keys env i w :
  keyed (store w) →
  dom (store (markAsSynced env i w).2) = dom (store w).
Proof.
  intros Hk. unfold markAsSynced. destruct (usable_dec w) as [Hu | Hu].
  - rewrite with_db, try_rethrow by done.
    erewrite bind_ok by reflexivity.
    by apply (updateGeneration_keys env i _ (tick (set_db true w))).
  - by rewrite without_db.
Qed.

Lemma sync_item_keys env item w :
  keyed (store w) →
  dom (store (UseIndexDB.sync_item env item w).2) = dom (store w).
Proof.
  intros Hk. unfold UseIndexDB.sync_item. rewrite try_rethrow.
  pose proof (resultData_world env item w) as Hw.
  destruct (UseIndexDB.resultData env item w) as [[r | err] w1] eqn:E1;
    simpl in Hw; subst w1.
  - erewrite bind_ok by exact E1.
    destruct (toJSON (UseIndexDB.with_result item r)) as [j |] eqn:Ej;
      [destruct (post env (posted w) (UseIndexDB.with_result item r)) eqn:Ep |].
    + erewrite bind_ok; last first.
      { unfold UseIndexDB.axios_post. rewrite Ej, Ep. reflexivity. }
      by apply (markAsSynced_keys env (id item) (add_posted _ w)).
    + erewrite bind_throw; last first.
      { unfold UseIndexDB.axios_post. rewrite Ej, Ep. reflexivity. }
      done.
    + erewrite bind_throw; last first.
      { unfold UseIndexDB.axios_post. rewrite Ej. reflexivity. }
      done.
  - by erewrite bind_throw by exact E1.
Qed.

Lemma sync_loop_keys env l : ∀ w,
  keyed (store w) →
  dom (store (UseIndexDB.sync_loop env l w).2) = dom (store w).
Proof.
  induction l as [| item l IH]; intros w Hk; simpl; [done |].
  pose proof (sync_item_keys env item w Hk) as Hd.
  destruct (sync_item_advances (λ _ _, True) (λ _, I) (λ _ _ _, I) env item w Hk)
    as [Hk1 _].
  destruct (UseIndexDB.sync_item env item w) as [[[] | err] w1] eqn:E.
  - erewrite bind_ok by exact E. simpl in *. by rewrite IH.
  - by erewrite bind_throw by exact E.
Qed.

Lemma same_content_synced_trans a b c :
  same_content a b ∧ (synced a = Some true → synced b = Some true) →
  same_content b c ∧ (synced b = Some true → synced c = Some true) →
  same_content a c ∧ (synced a = Some true → synced c = Some true).
Proof.
  intros [Hab Hab'] [Hbc Hbc']. split; [| tauto].
  unfold same_content in *.
  destruct Hab as (? & ? & ? & ? & ? & ? & ? & ? & ? & ? & ?).
  destruct Hbc as (? & ? & ? & ? & ? & ? & ? & ? & ? & ? & ?).
  repeat split; congruence.
Qed.

(** X14. A sync pass, however it ends, creates no record and deletes
    none, and in every record it changes nothing but the bookkeeping of
    the synchronisation ([synced], [lastSyncAttempt]) and [updatedAt]:
    id, user, type, prompt, result, model, metadata, creation date, number
    of attempts, tags and favorite mark are what they were; a record that
    was synced is synced afterwards.  The same holds of the loop of the
    pass over any list of records it is given. *)
Theorem sync_pass_touches_only_bookkeeping env w :
  keyed (store w) →
  let w' := (UseIndexDB.syncToServer env w).2 in
  (dom (store w') = dom (store w) ∧
   ∀ k g, store w !! k = Some g →
     ∃ g', store w' !! k = Some g' ∧ same_content g g' ∧
           (synced g = Some true → synced g' = Some true)) ∧
  (∀ l, let w'' := (UseIndexDB.sync_loop env l w).2 in
     dom (store w'') = dom (store w) ∧
     ∀ k g, store w !! k = Some g →
       ∃ g', store w'' !! k = Some g' ∧ same_content g g' ∧
             (synced g = Some true → synced g' = Some true)).
Proof.
  intros Hk w'.
  assert (store w' = store w) as Hsame.
  { unfold w', UseIndexDB.syncToServer. rewrite try_rethrow.
    destruct (usable_dec w) as [Hu | Hu].
    - pose proof (getUnsyncedGenerations_usable w Hu) as Hget.
      destruct (strict_keys w).
      + by erewrite bind_throw by exact Hget.
      + by erewrite bind_ok by exact Hget.
    - erewrite bind_throw; [done |].
      unfold getUnsyncedGenerations. by apply without_db. }
  split.
  - rewrite Hsame. split; [done |]. intros k g Hg.
    exists g. split; [done |]. by repeat split.
  - intros l w''. split; [by apply sync_loop_keys |].
    refine (proj2 (sync_loop_advances
              (λ g g', same_content g g' ∧ (synced g = Some true → synced g' = Some true))
              _ _ _ env l w Hk)).
    + intros g. by repeat split.
    + apply same_content_synced_trans.
    + intros g d now. by repeat split.
Qed.

(** *** Plans and quotas *)

(** X15. The plans are nested: whatever name is asked for, a feature the
    free plan grants is granted by the basic plan, and the pro plan grants
    every feature; api access, priority support and custom models are
    granted by the pro plan alone; without a subscription, and for a plan
    of any other name, the answer is [false]. *)
Theorem plans_are_nested s1 s2 s3 feature :
  let access p s :=
    hasFeatureAccess (Some {| plan := p; status := s |}) feature in
  (JS.truthy (access "free" s1) = true → JS.truthy (access "basic" s2) = true) ∧
  access "pro" s3 = JS.Bool true ∧
  (feature ∈ ["apiAccess"; "prioritySupport"; "customModels"] →
   access "free" s1 = JS.Bool false ∧ access "basic" s2 = JS.Bool false) ∧
  (∀ sub, plan sub ∉ ["free"; "basic"; "pro"] →
          hasFeatureAccess (Some sub) feature = JS.Bool false) ∧
  hasFeatureAccess None feature = JS.Bool false.
Proof.
  intros access. unfold access, hasFeatureAccess. cbn [plan String.eqb Ascii.eqb Bool.eqb].
  unfold JS.get. rewrite freeLimits_lookup, basicLimits_lookup.
  split_and!.
  - destruct (decide (feature ∈ ["imageGeneration"; "codeGeneration";
                                 "videoGeneration"; "audioGeneration";
                                 "highResolution"; "apiAccess";
                                 "prioritySupport"; "customModels";
                                 "batchProcessing"])) as [Hin | Hout].
    + repeat (apply elem_of_cons in Hin as [-> | Hin]; [by vm_compute |]).
      by apply elem_of_nil in Hin.
    + rewrite !bool_decide_eq_false_2; [done | ..];
        (intros Hin; apply Hout;
         repeat (apply elem_of_cons in Hin as [-> | Hin];
                 [by apply (bool_decide_unpack _) |]);
         by apply elem_of_nil in Hin).
  - done.
  - intros Hf.
    repeat (apply elem_of_cons in Hf as [-> | Hf]; [by vm_compute |]).
    by apply elem_of_nil in Hf.
  - intros sub Hp.
    destruct (String.eqb_spec (plan sub) "free") as [E | _];
      [destruct Hp; rewrite E; by apply (bool_decide_unpack _) |].
    destruct (String.eqb_spec (plan sub) "basic") as [E | _];
      [destruct Hp; rewrite E; by apply (bool_decide_unpack _) |].
    destruct (String.eqb_spec (plan sub) "pro") as [E | _];
      [destruct Hp; rewrite E; by apply (bool_decide_unpack _) | done].
  - done.
Qed.

(** X16. With the usage and the limits of the plan at hand, the two quota
    checks agree: the limit is reported reached exactly when the remaining
    quota is 0; the quota is ['unlimited'] exactly when the limit is; with
    a number for the limit and one for the usage it is their difference,
    and never below 0. *)
Theorem quota_checks_agree usage limits feature :
  (hasReachedLimit (Some usage) (Some limits) feature = true ↔
   getRemainingQuota (Some usage) (Some limits) feature = Remaining 0) ∧
  (getRemainingQuota (Some usage) (Some limits) feature = RemainingUnlimited ↔
   limits !! feature = Some Unlimited) ∧
  (∀ n c, limits !! feature = Some (Limit n) → usage !! feature = Some c →
          getRemainingQuota (Some usage) (Some limits) feature
          = Remaining (if n <=? c then 0 else n - c)) ∧
  (∀ u l n, getRemainingQuota u l feature = Remaining n → 0 ≤ n).
Proof.
  split_and!.
  - unfold hasReachedLimit, getRemainingQuota, JS.get, JS.ge.
    destruct (limits !! feature) as [[n |] |]; [| done |].
    + destruct (JS.to_number (current_usage usage feature)) as [c |]; [| done].
      rewrite Z.leb_le. split.
      * intros H. f_equal. lia.
      * intros [= H]. lia.
    + by destruct (JS.inherited feature).
  - unfold getRemainingQuota, JS.get.
    destruct (limits !! feature) as [[n |] |]; [| done |].
    + by destruct (JS.to_number (current_usage usage feature)).
    + by destruct (JS.inherited feature).
  - intros n c Hl Hc. unfold getRemainingQuota, JS.get. rewrite Hl.
    rewrite (current_usage_number usage feature c Hc). simpl. f_equal.
    destruct (Z.leb_spec n c); lia.
  - intros u l n. unfold getRemainingQuota, JS.get.
    destruct u as [u |], l as [l |]; try (intros [= <-]; lia).
    destruct (l !! feature) as [[m |] |]; [| done |].
    + destruct (JS.to_number (current_usage u feature)); intros [= <-]; lia.
    + by destruct (JS.inherited feature).
Qed.

(** *** The timers of auto-sync *)

Lemma autosync_invariant es : ∀ s,
  (UseIndexDB.isActive s = false →
   UseIndexDB.initialSync s = false ∧ UseIndexDB.intervalId s = false) →
  let s' := UseIndexDB.run s es in
  (UseIndexDB.isActive s' = false →
   UseIndexDB.initialSync s' = false ∧ UseIndexDB.intervalId s' = false) ∧
  (UseIndexDB.started s' - UseIndexDB.started s
   ≤ (if UseIndexDB.initialSync s then 1 else 0)
     + length (List.filter (λ e, match e with
                                 | UseIndexDB.IntervalFires => true
                                 | _ => false
                                 end) es))%nat ∧
  (UseIndexDB.started s ≤ UseIndexDB.started s')%nat ∧
  (UseIndexDB.running s' + UseIndexDB.started s
   ≤ UseIndexDB.running s + UseIndexDB.started s')%nat.
Proof.
  induction es as [| e es IH]; intros s Hs; [simpl; split_and!; [done | lia..] |].
  cbv zeta. unfold UseIndexDB.run. cbn [foldl].
  fold (UseIndexDB.run (UseIndexDB.step s e) es).
  specialize (IH (UseIndexDB.step s e)).
  destruct s as [a i t r n]. simpl in Hs.
  assert (a = true ∨ a = false ∧ i = false ∧ t = false) as Ha
    by (destruct a; [by left | right; by destruct Hs]).
  clear Hs.
  destruct Ha as [-> | (-> & -> & ->)]; destruct e;
    try destruct i; try destruct t; simpl in *;
    (destruct IH as (H1 & H2 & H3 & H4); [done |]);
    (split; [done |]); lia.
Qed.

(** X17. From the start of the effect on, whatever the timers and the
    passes do: the initial delay starts at most one pass and every other
    pass comes from a firing of the interval timer; there are never more
    passes in flight than passes started; and once the hook is inactive
    both timers are cleared. *)
Theorem autosync_pass_count es :
  let s := UseIndexDB.run UseIndexDB.activate es in
  (UseIndexDB.started s
   ≤ 1 + length (List.filter (λ e, match e with
                                   | UseIndexDB.IntervalFires => true
                                   | _ => false
                                   end) es))%nat ∧
  (UseIndexDB.running s ≤ UseIndexDB.started s)%nat ∧
  (UseIndexDB.isActive s = false →
   UseIndexDB.initialSync s = false ∧ UseIndexDB.intervalId s = false).
Proof.
  destruct (autosync_invariant es UseIndexDB.activate) as (H1 & H2 & H3 & H4);
    [done |].
  simpl in *. split_and!; [lia | lia | done].
Qed.

(** *** Import, save and paging *)

Lemma put_all_lookup l : ∀ s i,
  put_all s l !! i
  = match last_with_id l i with
    | Some g => Some g
    | None => s !! i
    end.
Proof.
  unfold put_all, last_with_id.
  induction l as [| x l IH] using rev_ind; intros s i; [done |].
  rewrite foldl_snoc, List.filter_app. simpl.
  destruct (String.eqb_spec (id x) i) as [<- | Hne].
  - by rewrite lookup_insert_eq, last_snoc.
  - rewrite lookup_insert_ne by done. by rewrite app_nil_r.
Qed.

(** X18. [importData] on a database that can be opened puts every record
    it is given and returns their number, duplicates counted; under every
    id the store then holds the last record of the data with that id, and
    what it held before if the data has none; no record is deleted, and
    every record still sits under its own id. *)
Theorem importData_last_wins data w :
  usable w →
  ∃ w',
    importData data w = (Ok (length data), w') ∧
    posted w' = posted w ∧
    (∀ i, store w' !! i
          = match last_with_id data i with
            | Some g => Some g
            | None => store w !! i
            end) ∧
    (∀ g, g ∈ data → is_Some (store w' !! id g)) ∧
    dom (store w) ⊆ dom (store w') ∧
    (keyed (store w) → keyed (store w')).
Proof.
  intros Hu. rewrite importData_usable by done.
  eexists. split; [reflexivity |]. simpl.
  split; [done |]. split; [apply put_all_lookup |]. split; [| split].
  - intros g Hg. rewrite put_all_lookup. unfold last_with_id.
    destruct (last _) eqn:El; [done |].
    apply last_None in El.
    assert (g ∈ List.filter (λ g0, String.eqb (id g0) (id g)) data) as Hin.
    { apply elem_of_filter. split; [apply String.eqb_refl | done]. }
    rewrite El in Hin. by apply elem_of_nil in Hin.
  - intros i. rewrite !elem_of_dom, put_all_lookup.
    destruct (last_with_id data i); [done.. |]. done.
  - apply keyed_put_all.
Qed.



Lemma filtered_sorted_page u o k n w :
  filtered_sorted u (Some (page o k n)) w = filtered_sorted u (Some o) w.
Proof. reflexivity. Qed.

(** X20. Pages fit together: with offset and limits that are not
    negative, the page of [a] records from offset [k] followed by the page
    of [b] records from offset [k + a] is the page of [a + b] records from
    offset [k], for every filter and sort order; and a page from offset 0
    with a limit of at least the number of matching records holds all of
    them. *)
Theorem consecutive_pages u o k a b w :
  usable w →
  0 ≤ k → 0 ≤ a → 0 ≤ b →
  ∃ p1 p2 p,
    getGenerations u (Some (page o k a)) w = (Ok p1, set_db true w) ∧
    getGenerations u (Some (page o (k + a) b)) w = (Ok p2, set_db true w) ∧
    getGenerations u (Some (page o k (a + b))) w = (Ok p, set_db true w) ∧
    p = p1 ++ p2 ∧
    (k = 0 → Z.of_nat (length (filtered_sorted u (Some o) w)) ≤ a →
     p1 = filtered_sorted u (Some o) w).
Proof.
  intros Hu Hk Ha Hb.
  destruct (getGenerations_usable u (Some (page o k a)) w Hu) as (p1 & H1 & E1).
  destruct (getGenerations_usable u (Some (page o (k + a) b)) w Hu) as (p2 & H2 & E2).
  destruct (getGenerations_usable u (Some (page o k (a + b))) w Hu) as (p & H3 & E3).
  exists p1, p2, p. do 3 (split; [done |]).
  rewrite filtered_sorted_page in E1, E2, E3.
  change (offset_of (Some (page o k a))) with k in E1.
  change (limit_of (Some (page o k a))) with a in E1.
  change (offset_of (Some (page o (k + a) b))) with (k + a) in E2.
  change (limit_of (Some (page o (k + a) b))) with b in E2.
  change (offset_of (Some (page o k (a + b)))) with k in E3.
  change (limit_of (Some (page o k (a + b)))) with (a + b) in E3.
  rewrite JS_slice_page in E1, E2, E3 by lia.
  subst p1 p2 p. split.
  - rewrite !Z2Nat.inj_add by lia. rewrite <- drop_drop.
    by rewrite take_take_drop.
  - intros -> Hlen. change (Z.to_nat 0) with 0%nat. rewrite drop_0.
    apply take_ge. lia.
Qed.

(* ===================================================================== *)
(** ** The further properties on sample data                             *)
(* ===================================================================== *)

Lemma missing_record_witness :
  toggleFavorite Sample.env "gen_7" (Sample.world [Sample.r1])
  = (Throw GenerationNotFound, set_db true (Sample.world [Sample.r1])) ∧
  markSyncFailed Sample.env "gen_7" (Sample.world [Sample.r1])
  = (Ok tt, set_db true (Sample.world [Sample.r1])).
Proof.
  destruct (missing_record Sample.env "gen_7" Sample.unsync []
              (Sample.world [Sample.r1]))
    as (_ & _ & H3 & _ & H5).
  - right. reflexivity.
  - vm_compute. reflexivity.
  - split; assumption.
Defined.

Lemma toggleFavorite_flips_witness :
  ∃ w1 w2 g1,
    toggleFavorite Sample.env "gen_5" (Sample.world [Sample.tagged])
    = (Ok false, w1) ∧
    store w1 !! "gen_5" = Some g1 ∧ favorite g1 = Some false ∧
    tags g1 = Some ["sea"; "night"] ∧
    toggleFavorite Sample.env "gen_5" w1 = (Ok true, w2).
Proof.
  destruct (toggleFavorite_flips Sample.env "gen_5"
              (Sample.world [Sample.tagged]) Sample.tagged)
    as (w1 & w2 & g1 & g2 & H1 & H2 & H3 & H4 & _ & H5 & _).
  - right. reflexivity.
  - vm_compute. reflexivity.
  - reflexivity.
  - exists w1, w2, g1. split; [exact H1 |]. split; [exact H2 |].
    split; [exact H3 |]. split; [| exact H5].
    destruct H4 as (_ & _ & _ & _ & _ & _ & _ & _ & _ & _ & _ & Ht).
    exact Ht.
Defined.

Lemma addTags_merges_witness :
  ∃ w1 g1 ts,
    addTags Sample.env "gen_5" ["night"; "boat"] (Sample.world [Sample.tagged])
    = (Ok tt, w1) ∧
    store w1 !! "gen_5" = Some g1 ∧ tags g1 = Some ts ∧
    NoDup ts ∧ "boat" ∈ ts ∧ ["sea"; "night"] `prefix_of` ts.
Proof.
  destruct (addTags_merges Sample.env "gen_5" ["night"; "boat"]
              (Sample.world [Sample.tagged]) Sample.tagged)
    as (w1 & w2 & g1 & g2 & ts & H1 & H2 & H3 & H4 & H5 & H6 & _).
  - right. reflexivity.
  - vm_compute. reflexivity.
  - reflexivity.
  - exists w1, g1, ts. split; [exact H1 |]. split; [exact H2 |].
    split; [exact H3 |]. split; [exact H4 |]. split.
    + apply H5. right. apply (bool_decide_unpack _). vm_compute. exact I.
    + apply H6. apply (bool_decide_unpack _). vm_compute. exact I.
Defined.

Lemma deleting_removes_exactly_witness :
  ∃ w',
    deleteGenerations ["gen_1"; "gen_3"]
      (Sample.world [Sample.r1; Sample.r2; Sample.r3]) = (Ok tt, w') ∧
    store w' !! "gen_1" = None ∧
    store w' !! "gen_2" = Some Sample.r2 ∧
    store w' !! "gen_3" = None.
Proof.
  destruct (deleting_removes_exactly ["gen_1"; "gen_3"] "gen_2"
              (Sample.world [Sample.r1; Sample.r2; Sample.r3]))
    as (w' & w1 & H1 & H2 & _).
  - right. reflexivity.
  - exists w'. split; [exact H1 |].
    rewrite !H2. vm_compute. repeat split.
Defined.

Lemma clearAll_empties_witness :
  ∃ w',
    clearAll (Sample.world [Sample.r1; Sample.r2]) = (Ok tt, w') ∧
    store w' = ∅ ∧
    getGenerations "user_1" None w' = (Ok [], w').
Proof.
  destruct (clearAll_empties "user_1" None "gen_1"
              (Sample.world [Sample.r1; Sample.r2]))
    as (w' & H1 & H2 & _ & H3 & _).
  - right. reflexivity.
  - exists w'. split; [exact H1 |]. split; [exact H2 | exact H3].
Defined.

Lemma clearOldGenerations_removes_old_witness :
  ∃ n w',
    clearOldGenerations Sample.env None (Sample.world [Sample.r1; Sample.recent])
    = (Cleaned n, w') ∧
    store w' !! "gen_1" = None ∧
    store w' !! "gen_4" = Some Sample.recent.
Proof.
  destruct (clearOldGenerations_removes_old Sample.env None
              (Sample.world [Sample.r1; Sample.recent]))
    as (n & w' & H1 & H2 & _).
  - right. reflexivity.
  - apply (bool_decide_unpack _). vm_compute. exact I.
  - vm_compute. reflexivity.
  - exists n, w'. split; [exact H1 |]. split.
    + rewrite (H2 "gen_1" Sample.r1); vm_compute; reflexivity.
    + rewrite (H2 "gen_4" Sample.recent); vm_compute; reflexivity.
Defined.

Lemma clearOldGenerations_fails_witness :
  (∃ w', clearOldGenerations Sample.env (Some 200000000)
           (Sample.world [Sample.r1]) = (DataError, w') ∧
         store w' = store (Sample.world [Sample.r1])) ∧
  clearOldGenerations Sample.env None Sample.broken
  = (Failed InitializationFailed, Sample.broken).
Proof.
  split.
  - apply (clearOldGenerations_fails Sample.env (Some 200000000)
             (Sample.world [Sample.r1])).
    + right. reflexivity.
    + vm_compute. reflexivity.
  - apply (clearOldGenerations_fails Sample.env None Sample.broken).
    vm_compute. intros [H | H]; discriminate H.
Defined.

Lemma getStorageStats_summary_witness :
  ∃ st (l : list IndexedDBGeneration),
    getStorageStats Z.ltb "user_1" (Sample.world [Sample.r1; Sample.r2; Sample.photo])
    = (Ok st, set_db true (Sample.world [Sample.r1; Sample.r2; Sample.photo])) ∧
    (syncedCount st + unsyncedCount st = length l)%nat ∧
    total (counts st) = length l ∧
    (oldestItem st = None ↔ l = []).
Proof.
  destruct (getStorageStats_summary Z.ltb "user_1"
              (Sample.world [Sample.r1; Sample.r2; Sample.photo]))
    as (st & l & H1 & _ & _ & _ & H2 & H3 & _ & _ & _ & H4 & _).
  - right. reflexivity.
  - exists st, l. split; [exact H1 |]. split; [exact H2 |].
    split; [exact H3 | exact H4].
Defined.

Lemma searchGenerations_hits_witness :
  ∃ hits (l : list IndexedDBGeneration),
    searchGenerations (λ s, s) "user_1" "house" None
      (Sample.world [Sample.r1; Sample.tagged])
    = (Ok hits, set_db true (Sample.world [Sample.r1; Sample.tagged])) ∧
    sublist hits l ∧ Z.of_nat (length l) ≤ 1000.
Proof.
  destruct (searchGenerations_hits (λ s, s) "user_1" "house" None
              (Sample.world [Sample.r1; Sample.tagged]))
    as (hits & l & H1 & _ & H2 & H3 & _).
  - right. reflexivity.
  - exists hits, l. split; [exact H1 |]. split; [exact H2 | exact H3].
Defined.


Lemma update_with_another_id_witness :
  ∃ w' g,
    updateGeneration Sample.env "gen_3" Sample.rename
      (Sample.world [Sample.done1; Sample.r3]) = (Ok tt, w') ∧
    store w' !! "gen_3" = Some Sample.r3 ∧
    store w' !! "gen_1" = Some g ∧
    createdAt g = createdAt Sample.r3 ∧ synced g = Some false.
Proof.
  destruct (update_with_another_id Sample.env "gen_3" "gen_1" Sample.rename
              (Sample.world [Sample.done1; Sample.r3]) Sample.r3)
    as (w' & g & H1 & H2 & _ & H4 & H5 & _).
  - right. reflexivity.
  - vm_compute. reflexivity.
  - reflexivity.
  - discriminate.
  - exists w', g. split; [exact H1 |]. split; [exact H4 |].
    split; [exact H5 |]. rewrite H2. split; reflexivity.
Defined.

Lemma sync_pass_touches_only_bookkeeping_witness :
  ∃ g',
    store (UseIndexDB.syncToServer Sample.env
             (Sample.world [Sample.r1; Sample.r2; Sample.r3])).2 !! "gen_1"
    = Some g' ∧
    same_content Sample.r1 g'.
Proof.
  destruct (sync_pass_touches_only_bookkeeping Sample.env
              (Sample.world [Sample.r1; Sample.r2; Sample.r3]))
    as [[_ H] _].
  - apply (bool_decide_unpack _). vm_compute. exact I.
  - destruct (H "gen_1" Sample.r1) as (g' & H1 & H2 & _).
    + vm_compute. reflexivity.
    + exists g'. split; [exact H1 | exact H2].
Defined.

Lemma importData_last_wins_witness :
  ∃ w',
    importData [Sample.r1; Sample.r2; Sample.done1] (Sample.world [])
    = (Ok 3%nat, w') ∧
    store w' !! "gen_1" = Some Sample.done1 ∧
    store w' !! "gen_2" = Some Sample.r2 ∧
    store w' !! "gen_3" = None.
Proof.
  destruct (importData_last_wins [Sample.r1; Sample.r2; Sample.done1]
              (Sample.world []))
    as (w' & H1 & _ & H2 & _).
  - right. reflexivity.
  - exists w'. split; [exact H1 |].
    rewrite !H2. vm_compute. repeat split.
Defined.


Lemma consecutive_pages_witness :
  ∃ p1 p2 p,
    getGenerations "user_1" (Some (page no_options 0 1))
      (Sample.world [Sample.r1; Sample.r2; Sample.r3])
    = (Ok p1, set_db true (Sample.world [Sample.r1; Sample.r2; Sample.r3])) ∧
    getGenerations "user_1" (Some (page no_options 1 1))
      (Sample.world [Sample.r1; Sample.r2; Sample.r3])
    = (Ok p2, set_db true (Sample.world [Sample.r1; Sample.r2; Sample.r3])) ∧
    getGenerations "user_1" (Some (page no_options 0 2))
      (Sample.world [Sample.r1; Sample.r2; Sample.r3])
    = (Ok p, set_db true (Sample.world [Sample.r1; Sample.r2; Sample.r3])) ∧
    p = p1 ++ p2.
Proof.
  destruct (consecutive_pages "user_1" no_options 0 1 1
              (Sample.world [Sample.r1; Sample.r2; Sample.r3]))
    as (p1 & p2 & p & H1 & H2 & H3 & H4 & _).
  - right. reflexivity.
  - lia.
  - lia.
  - lia.
  - exists p1, p2, p. split; [exact H1 |]. split; [exact H2 |].
    split; [exact H3 | exact H4].
Defined.
